(** * Fourier series engine: a shallow embedding of [fourier_logic.py]

    The development follows [FourierSeriesAnalyzer] method by method.

    Numeric model.  Array entries and scalars are finite binary64 values in
    the source; here they are real numbers and arithmetic is exact (no
    rounding, no overflow).  In exact arithmetic on finite inputs every
    division of the engine that is carried out by numpy has a strictly
    positive denominator and every square root a non-negative argument, so
    the only operation that can leave the finite range is [np.log10] at 0;
    its result is therefore typed [np_float], which keeps numpy's [-inf]
    and [nan].  Divisions carried out on Python floats raise
    [ZeroDivisionError]; numpy's shape and size errors raise [ValueError];
    indexing past the end raises [IndexError].  All three are explicit in
    the [result] type. *)

From Stdlib Require Import List ZArith Reals Lra Lia Bool Permutation Sorted.
From Stdlib Require String DecimalString.
Import ListNotations.
Import String.StringSyntax.
Delimit Scope string_scope with string.
Open Scope R_scope.

(** ** Exceptions and the error monad *)

Inductive exn : Type :=
| ZeroDivisionError
| ValueError
| IndexError.

Inductive result (A : Type) : Type :=
| Ok (a : A)
| Raise (e : exn).

Arguments Ok {A} a.
Arguments Raise {A} e.

Definition bind {A B : Type} (m : result A) (k : A -> result B) : result B :=
  match m with
  | Ok a => k a
  | Raise e => Raise e
  end.

Notation "x <- m ;; k" := (bind m (fun x => k))
  (at level 61, m at next level, right associativity).
Notation "' p <- m ;; k" := (bind m (fun p => k))
  (at level 61, p pattern, m at next level, right associativity).

(** A [for] loop whose body may raise. *)
Fixpoint for_each {A S : Type} (body : S -> A -> result S) (xs : list A) (s : S)
  : result S :=
  match xs with
  | [] => Ok s
  | x :: xs' => s' <- body s x ;; for_each body xs' s'
  end.

(** ** The part of Python and numpy that the engine uses *)

(** [x / y] on Python floats. *)
Definition py_div (x y : R) : result R :=
  if Req_dec_T y 0 then Raise ZeroDivisionError else Ok (x / y).

Fixpoint zip_with {A B C : Type} (f : A -> B -> C) (xs : list A) (ys : list B)
  : list C :=
  match xs, ys with
  | x :: xs', y :: ys' => f x y :: zip_with f xs' ys'
  | _, _ => []
  end.

(** An elementwise binary operation on two one-dimensional arrays, with
    numpy's broadcasting: equal lengths, or one operand of length one. *)
Definition broadcast2 (op : R -> R -> R) (x y : list R) : result (list R) :=
  if Nat.eqb (length x) (length y) then Ok (zip_with op x y)
  else match x, y with
       | [a], _ => Ok (map (op a) y)
       | _, [b] => Ok (map (fun a => op a b) x)
       | _, _ => Raise ValueError
       end.

(** [a[i]] for [0 <= i]. *)
Definition getitem (a : list R) (i : nat) : result R :=
  match nth_error a i with
  | Some v => Ok v
  | None => Raise IndexError
  end.

(** [a[i] = v] for [0 <= i]. *)
Fixpoint setitem (a : list R) (i : nat) (v : R) : result (list R) :=
  match a, i with
  | [], _ => Raise IndexError
  | _ :: a', O => Ok (v :: a')
  | x :: a', S i' => r <- setitem a' i' v ;; Ok (x :: r)
  end.

Definition np_sum (a : list R) : R := fold_right Rplus 0 a.

(** [np.mean]; the engine only takes it of non-empty arrays on the paths
    that return. *)
Definition np_mean (a : list R) : R := np_sum a / INR (length a).

(** [np.zeros(n)] *)
Definition np_zeros (n : Z) : result (list R) :=
  if (n <? 0)%Z then Raise ValueError else Ok (repeat 0 (Z.to_nat n)).

(** [np.ones_like(t)] *)
Definition np_ones_like (t : list R) : list R := map (fun _ => 1) t.

(** [np.linspace(start, stop, num, endpoint=False)]: [arange(num) * step + start]
    with [step = (stop - start) / num]. *)
Definition linspace (start stop : R) (num : Z) : result (list R) :=
  if (num <? 0)%Z then Raise ValueError
  else
    let step := (stop - start) / IZR num in
    Ok (map (fun i => INR i * step + start) (seq 0 (Z.to_nat num))).

(** [c * a] for a scalar [c] and an array [a]. *)
Definition scale (c : R) (a : list R) : list R := map (Rmult c) a.

Definition np_cos (a : list R) : list R := map cos a.
Definition np_sin (a : list R) : list R := map sin a.

(** [a ** 2] *)
Definition np_square (a : list R) : list R := map (fun v => v ^ 2) a.

(** [np.diff(x)] is [x[1:] - x[:-1]]. *)
Definition np_diff (x : list R) : list R :=
  zip_with Rminus (tl x) (removelast x).

(** [np.trapz(y, x)] is [(diff(x) * (y[1:] + y[:-1]) / 2.0).sum()]. *)
Definition trapz (y x : list R) : result R :=
  p <- broadcast2 Rmult (np_diff x) (zip_with Rplus (tl y) (removelast y)) ;;
  Ok (np_sum (map (fun v => v / 2) p)).

(** ** The analyzer object *)

Record analyzer : Type := mkAnalyzer {
  period : R;
  omega0 : R
}.

(** [FourierSeriesAnalyzer.__init__] *)
Definition init (p : R) : result analyzer :=
  w <- py_div (2 * PI) p ;;
  Ok (mkAnalyzer p w).

(** ** [compute_coefficients] *)

(** The body of the loop over [n = 1 .. n_harmonics]. *)
Definition coefficient_step (self : analyzer) (f_samples t : list R)
    (acc : list R * list R) (n : nat) : result (list R * list R) :=
  let '(an, bn) := acc in
  let cos_n := np_cos (scale (INR n * omega0 self) t) in
  let sin_n := np_sin (scale (INR n * omega0 self) t) in
  c <- py_div 2 (period self) ;;
  fc <- broadcast2 Rmult f_samples cos_n ;;
  int_c <- trapz fc t ;;
  an' <- setitem an (n - 1) (c * int_c) ;;
  s <- py_div 2 (period self) ;;
  fs <- broadcast2 Rmult f_samples sin_n ;;
  int_s <- trapz fs t ;;
  bn' <- setitem bn (n - 1) (s * int_s) ;;
  Ok (an', bn').

Definition compute_coefficients (self : analyzer)
    (func : list R -> result (list R)) (n_harmonics n_points : Z)
  : result (R * list R * list R) :=
  t <- linspace 0 (period self) n_points ;;
  f_samples <- func t ;;
  c <- py_div 2 (period self) ;;
  i0 <- trapz f_samples t ;;
  let a0 := c * i0 in
  an <- np_zeros n_harmonics ;;
  bn <- np_zeros n_harmonics ;;
  '(an', bn') <- for_each (coefficient_step self f_samples t)
                   (seq 1 (Z.to_nat n_harmonics)) (an, bn) ;;
  Ok (a0, an', bn').

(** The trapezoidal rule over one full period, as the specification words
    it: the [n_points] samples on [[0, period)] are closed by the endpoint
    [period], where a periodic function takes its value at [0] again. *)
Definition spec_full_period_integral (T : R) (y t : list R) : result R :=
  trapz (y ++ [hd 0 y]) (t ++ [T]).

(** ** [synthesize_progressive] and [synthesize_selective] *)

(** The two in-place additions of harmonic [n + 1]:
    [signal += an[n] * np.cos((n+1) * omega0 * t)] and
    [signal += bn[n] * np.sin((n+1) * omega0 * t)]. *)
Definition add_harmonic (self : analyzer) (an bn t : list R)
    (signal : list R) (n : nat) : result (list R) :=
  a <- getitem an n ;;
  let signal1 :=
    zip_with Rplus signal (scale a (np_cos (scale (INR (n + 1) * omega0 self) t))) in
  b <- getitem bn n ;;
  let signal2 :=
    zip_with Rplus signal1 (scale b (np_sin (scale (INR (n + 1) * omega0 self) t))) in
  Ok signal2.

Definition progressive_step (self : analyzer) (an bn t : list R)
    (st : list R * list (list R)) (n : nat) : result (list R * list (list R)) :=
  let '(signal, reconstructions) := st in
  signal' <- add_harmonic self an bn t signal n ;;
  Ok (signal', reconstructions ++ [signal']).

Definition synthesize_progressive (self : analyzer) (a0 : R) (an bn t : list R)
  : result (list (list R)) :=
  let signal := scale (a0 / 2) (np_ones_like t) in
  '(_, reconstructions) <-
     for_each (progressive_step self an bn t) (seq 0 (length an)) (signal, [signal]) ;;
  Ok reconstructions.

Definition enumerate {A : Type} (l : list A) : list (nat * A) :=
  combine (seq 0 (length l)) l.

Definition selective_step (self : analyzer) (an bn t : list R)
    (signal : list R) (ne : nat * bool) : result (list R) :=
  let '(n, enabled) := ne in
  if enabled && (n <? length an)%nat
  then add_harmonic self an bn t signal n
  else Ok signal.

Definition synthesize_selective (self : analyzer) (a0 : R) (an bn t : list R)
    (enabled_harmonics : list bool) : result (list R) :=
  for_each (selective_step self an bn t) (enumerate enabled_harmonics)
    (scale (a0 / 2) (np_ones_like t)).

(** What the specification promises of selective synthesis, sample by
    sample: start from [a0/2] and run over the harmonics [k < N], adding
    harmonic [k + 1] exactly when [mask[k]] is true (a missing mask entry
    counts as false). *)
Definition spec_selective_sample (self : analyzer) (a0 : R) (an bn : list R)
    (mask : list bool) (ti : R) : R :=
  fold_left
    (fun s k =>
       if nth k mask false
       then s + nth k an 0 * cos (INR (k + 1) * omega0 self * ti)
              + nth k bn 0 * sin (INR (k + 1) * omega0 self * ti)
       else s)
    (seq 0 (length an)) (a0 / 2).

Definition spec_selective (self : analyzer) (a0 : R) (an bn t : list R)
    (mask : list bool) : list R :=
  map (spec_selective_sample self a0 an bn mask) t.

(** ** The same two functions over a store of array objects

    Arrays are objects with identity: [signal += ...] updates the object
    [signal] names, and [signal.copy()] makes a new one.  A heap is the
    list of all array objects in allocation order and an address is a
    position in it.  Temporaries that are never bound to a name or returned
    (the results of [np.cos], of the products) stay values. *)

Definition addr : Type := nat.
Definition heap : Type := list (list R).

Definition load (h : heap) (p : addr) : list R := nth p h [].

Definition alloc (h : heap) (a : list R) : addr * heap := (length h, h ++ [a]).

Fixpoint store (h : heap) (p : addr) (a : list R) : heap :=
  match h, p with
  | [], _ => []
  | _ :: h', O => a :: h'
  | x :: h', S p' => x :: store h' p' a
  end.

Definition add_harmonic_mem (self : analyzer) (p_an p_bn p_t p_signal : addr)
    (n : nat) (h : heap) : result heap :=
  a <- getitem (load h p_an) n ;;
  let h1 := store h p_signal
    (zip_with Rplus (load h p_signal)
       (scale a (np_cos (scale (INR (n + 1) * omega0 self) (load h p_t))))) in
  b <- getitem (load h1 p_bn) n ;;
  let h2 := store h1 p_signal
    (zip_with Rplus (load h1 p_signal)
       (scale b (np_sin (scale (INR (n + 1) * omega0 self) (load h1 p_t))))) in
  Ok h2.

Definition progressive_step_mem (self : analyzer) (p_an p_bn p_t p_signal : addr)
    (st : heap * list addr) (n : nat) : result (heap * list addr) :=
  let '(h, reconstructions) := st in
  h1 <- add_harmonic_mem self p_an p_bn p_t p_signal n h ;;
  let '(p_copy, h2) := alloc h1 (load h1 p_signal) in
  Ok (h2, reconstructions ++ [p_copy]).

Definition synthesize_progressive_mem (self : analyzer) (a0 : R)
    (p_an p_bn p_t : addr) (h : heap) : result (list addr * heap) :=
  let '(p_signal, h1) := alloc h (scale (a0 / 2) (np_ones_like (load h p_t))) in
  let '(p_copy, h2) := alloc h1 (load h1 p_signal) in
  '(h3, reconstructions) <-
     for_each (progressive_step_mem self p_an p_bn p_t p_signal)
       (seq 0 (length (load h2 p_an))) (h2, [p_copy]) ;;
  Ok (reconstructions, h3).

Definition selective_step_mem (self : analyzer) (p_an p_bn p_t p_signal : addr)
    (h : heap) (ne : nat * bool) : result heap :=
  let '(n, enabled) := ne in
  if enabled && (n <? length (load h p_an))%nat
  then add_harmonic_mem self p_an p_bn p_t p_signal n h
  else Ok h.

Definition synthesize_selective_mem (self : analyzer) (a0 : R)
    (p_an p_bn p_t : addr) (enabled_harmonics : list bool) (h : heap)
  : result (addr * heap) :=
  let '(p_signal, h1) := alloc h (scale (a0 / 2) (np_ones_like (load h p_t))) in
  h2 <- for_each (selective_step_mem self p_an p_bn p_t p_signal)
          (enumerate enabled_harmonics) h1 ;;
  Ok (p_signal, h2).

(** ** [compute_metrics] *)

(** A numpy double that may be one of the special values. *)
Inductive np_float : Type :=
| Finite (r : R)
| NegInf
| PosInf
| NaN.

(** [np.log10]: [-inf] at zero and [nan] below it. *)
Definition np_log10 (x : R) : np_float :=
  if Rlt_dec 0 x then Finite (ln x / ln 10)
  else if Req_dec_T x 0 then NegInf
  else NaN.

(** [c * x] for a finite scalar [c]. *)
Definition float_mul (c : R) (x : np_float) : np_float :=
  match x with
  | Finite r => Finite (c * r)
  | NaN => NaN
  | PosInf => if Rlt_dec 0 c then PosInf else if Rlt_dec c 0 then NegInf else NaN
  | NegInf => if Rlt_dec 0 c then NegInf else if Rlt_dec c 0 then PosInf else NaN
  end.

(** The guard [1e-12]. *)
Definition eps : R := 1 / 10 ^ 12.

(** [np.std]: the square root of the mean squared deviation from the mean. *)
Definition np_std (a : list R) : R :=
  sqrt (np_mean (map (fun v => (v - np_mean a) * (v - np_mean a)) a)).

(** [np.max], which raises on an empty array. *)
Definition np_max (a : list R) : result R :=
  match a with
  | [] => Raise ValueError
  | x :: a' => Ok (fold_left Rmax a' x)
  end.

Definition np_abs (a : list R) : list R := map Rabs a.

Record metrics : Type := mkMetrics {
  rms_error : R;
  max_error : R;
  snr_db : np_float;
  relative_error : R
}.

Definition compute_metrics (original reconstructed : list R) : result metrics :=
  d <- broadcast2 Rminus original reconstructed ;;
  let rms := sqrt (np_mean (np_square d)) in
  d' <- broadcast2 Rminus original reconstructed ;;
  mx <- np_max (np_abs d') ;;
  let snr := float_mul 20 (np_log10 (np_std original / (rms + eps))) in
  Ok {| rms_error := rms;
        max_error := mx;
        snr_db := snr;
        relative_error := rms / (np_std original + eps) |}.

(** [compute_metrics] with the value of [np.std] taken as given.  numpy
    rounds the mean and the deviations, so the standard deviation it returns
    for an array need not be the exact one; in particular it need not be 0
    on an array whose entries are all equal.  Here [std] is any function
    that gives the value numpy returns; [compute_metrics] is the instance
    where that value is exact. *)
Definition compute_metrics_with (std : list R -> R)
    (original reconstructed : list R) : result metrics :=
  d <- broadcast2 Rminus original reconstructed ;;
  let rms := sqrt (np_mean (np_square d)) in
  d' <- broadcast2 Rminus original reconstructed ;;
  mx <- np_max (np_abs d') ;;
  let snr := float_mul 20 (np_log10 (std original / (rms + eps))) in
  Ok {| rms_error := rms;
        max_error := mx;
        snr_db := snr;
        relative_error := rms / (std original + eps) |}.

(** ** [get_harmonic_analysis] *)

(** [np.arctan2(y, x)] *)
Definition arctan2 (y x : R) : R :=
  if Rlt_dec 0 x then atan (y / x)
  else if Rlt_dec x 0 then
    (if Rle_dec 0 y then atan (y / x) + PI else atan (y / x) - PI)
  else if Rlt_dec 0 y then PI / 2
  else if Rlt_dec y 0 then - PI / 2
  else 0.

Fixpoint insert_index (a : list R) (i : nat) (l : list nat) : list nat :=
  match l with
  | [] => [i]
  | j :: l' =>
      if Rle_dec (nth i a 0) (nth j a 0) then i :: j :: l'
      else j :: insert_index a i l'
  end.

(** [np.argsort]: the indices of [a] in ascending order of value.  numpy
    leaves the order of equal values open; here equal values keep the order
    of their indices. *)
Definition argsort (a : list R) : list nat :=
  fold_right (insert_index a) [] (seq 0 (length a)).

(** [l[-k:]] *)
Definition last_n {A : Type} (k : nat) (l : list A) : list A :=
  skipn (length l - k) l.

Record harmonic_analysis : Type := mkAnalysis {
  magnitude : list R;
  phase : list R;
  power : list R;
  total_power : R;
  power_percentage : list R;
  dominant_harmonics : list nat;
  fundamental_power : R;
  thd : R
}.

Definition get_harmonic_analysis (an bn : list R) : result harmonic_analysis :=
  s <- broadcast2 Rplus (np_square an) (np_square bn) ;;
  let magnitude := map sqrt s in
  phase <- broadcast2 arctan2 bn an ;;
  let power := np_square magnitude in
  let total_power := np_sum power in
  let dominant_indices := rev (last_n 5 (argsort magnitude)) in
  Ok {| magnitude := magnitude;
        phase := phase;
        power := power;
        total_power := total_power;
        power_percentage := map (fun p => p / (total_power + eps) * 100) power;
        dominant_harmonics := map (fun i => (i + 1)%nat) dominant_indices;
        fundamental_power :=
          if (0 <? length power)%nat then nth 0 power 0 else 0;
        thd :=
          if (0 <? length power)%nat
          then sqrt (np_sum (tl power) / (nth 0 power 0 + eps)) * 100
          else 0 |}.

(** ** [export_data]

    What a value is made of matters here: a Python [float] or [int], a
    Python list of floats (the result of [ndarray.tolist()]), a numpy
    scalar, a numpy array, or a [dict] with string keys. *)

#[local] Set Warnings "-register-all".

Inductive pyval : Type :=
| PyFloat (x : R)
| PyInt (z : Z)
| PyList (l : list R)
| NpFloat64 (x : np_float)
| NdArray (l : list R)
| NdArrayInt (l : list Z)
| PyDict (items : list (String.string * pyval)).

(** The dictionary [get_harmonic_analysis] returns, leaf by leaf. *)
Definition analysis_dict (ha : harmonic_analysis) : pyval :=
  PyDict
    [ ("magnitude"%string, NdArray (magnitude ha));
      ("phase"%string, NdArray (phase ha));
      ("power"%string, NdArray (power ha));
      ("total_power"%string, NpFloat64 (Finite (total_power ha)));
      ("power_percentage"%string, NdArray (power_percentage ha));
      ("dominant_harmonics"%string,
        NdArrayInt (map Z.of_nat (dominant_harmonics ha)));
      ("fundamental_power"%string,
        if (0 <? length (power ha))%nat
        then NpFloat64 (Finite (fundamental_power ha)) else PyInt 0);
      ("thd"%string,
        if (0 <? length (power ha))%nat
        then NpFloat64 (Finite (thd ha)) else PyInt 0) ].

(** The dictionary [compute_metrics] returns. *)
Definition metrics_dict (m : metrics) : pyval :=
  PyDict
    [ ("rms_error"%string, NpFloat64 (Finite (rms_error m)));
      ("max_error"%string, NpFloat64 (Finite (max_error m)));
      ("snr_db"%string, NpFloat64 (snr_db m));
      ("relative_error"%string, NpFloat64 (Finite (relative_error m))) ].

Definition export_data (t original reconstructed : list R) (a0 : R)
    (an bn : list R) : result pyval :=
  ha <- get_harmonic_analysis an bn ;;
  m <- compute_metrics original reconstructed ;;
  Ok (PyDict
        [ ("time"%string, PyList t);
          ("original_signal"%string, PyList original);
          ("reconstructed_signal"%string, PyList reconstructed);
          ("coefficients"%string,
            PyDict [ ("a0"%string, PyFloat a0);
                     ("an"%string, PyList an);
                     ("bn"%string, PyList bn) ]);
          ("analysis"%string, analysis_dict ha);
          ("metrics"%string, metrics_dict m) ]).

(** No numpy array is left anywhere in the value.  numpy scalars pass:
    [np.float64] is a subclass of [float]. *)
Fixpoint plain (v : pyval) : bool :=
  match v with
  | PyFloat _ | PyInt _ | PyList _ | NpFloat64 _ => true
  | NdArray _ | NdArrayInt _ => false
  | PyDict items =>
      (fix all_plain (l : list (String.string * pyval)) : bool :=
         match l with
         | [] => true
         | (_, v') :: l' => plain v' && all_plain l'
         end) items
  end.

(** [d[k]] on a [dict]. *)
Fixpoint dict_get (items : list (String.string * pyval)) (k : String.string)
  : option pyval :=
  match items with
  | [] => None
  | (k', v) :: items' => if String.eqb k k' then Some v else dict_get items' k
  end.

(** ** The waveform library of [_load_function_library]

    Each entry's [func] is a lambda over the sample array [t] with keyword
    arguments [A] (amplitude, default 1) and [T] (period, default [None]);
    [T or self.period] falls back to the analyzer's period when [T] is
    [None] or zero.  The metadata strings of the entries are not modelled. *)

Definition effective_period (self : analyzer) (T : option R) : R :=
  match T with
  | Some x => if Req_dec_T x 0 then period self else x
  | None => period self
  end.

(** [t % P] on doubles: the remainder has the sign of [P], and is [nan]
    for [P = 0]. *)
Definition np_mod (t P : R) : np_float :=
  if Req_dec_T P 0 then NaN else Finite (t - IZR (Int_part (t / P)) * P).

(** [x < c] for a double [x]; a comparison with [nan] is false. *)
Definition float_ltb (x : np_float) (c : R) : bool :=
  match x with
  | Finite m => if Rlt_dec m c then true else false
  | NegInf => true
  | PosInf | NaN => false
  end.

(** [np.where((t % P) < P/2, A, -A)] *)
Definition square (self : analyzer) (t : list R) (A : R) (T : option R) : list R :=
  let P := effective_period self T in
  map (fun ti => if float_ltb (np_mod ti P) (P / 2) then A else - A) t.

(** [np.where((t % P) < duty*P, A, 0)] *)
Definition pulse_train (self : analyzer) (t : list R) (A : R) (T : option R)
    (duty : R) : list R :=
  let P := effective_period self T in
  map (fun ti => if float_ltb (np_mod ti P) (duty * P) then A else 0) t.

(** [A * (2*((t % P)/P) - 1)]; with [P = 0] every operand is [nan]. *)
Definition sawtooth (self : analyzer) (t : list R) (A : R) (T : option R)
  : list np_float :=
  let P := effective_period self T in
  map (fun ti =>
         match np_mod ti P with
         | Finite m => Finite (A * (2 * (m / P) - 1))
         | _ => NaN
         end) t.

(** [A * (2*np.abs(2*((t % P)/P - 0.5)) - 1)] *)
Definition triangle (self : analyzer) (t : list R) (A : R) (T : option R)
  : list np_float :=
  let P := effective_period self T in
  map (fun ti =>
         match np_mod ti P with
         | Finite m => Finite (A * (2 * Rabs (2 * (m / P - 5 / 10)) - 1))
         | _ => NaN
         end) t.

(** [np.maximum(0, A * np.sin(2*np.pi*t/P))]; with [P = 0] the quotient is
    infinite or [nan], its sine is [nan], and [np.maximum] keeps [nan]. *)
Definition half_wave (self : analyzer) (t : list R) (A : R) (T : option R)
  : list np_float :=
  let P := effective_period self T in
  map (fun ti =>
         if Req_dec_T P 0 then NaN
         else Finite (Rmax 0 (A * sin (2 * PI * ti / P)))) t.

(** ** The engine's callers in [fourier_ui.py]

    Only the numeric part of each method is modelled; widgets and plots are
    left out. *)

(** [update_period]: the slider value is in hundredths. *)
Definition update_period (self : analyzer) (value : Z) : result analyzer :=
  p <- py_div (IZR value) 100 ;;
  w <- py_div (2 * PI) p ;;
  Ok (mkAnalyzer p w).

(** [wrapped_function] of [update_analysis]:
    [self.current_function(tt) * amplitude]. *)
Definition wrapped_function (current_function : list R -> result (list R))
    (amplitude : R) (tt : list R) : result (list R) :=
  y <- current_function tt ;;
  Ok (map (fun v => v * amplitude) y).

(** A harmonic check box: its label, whether it is shown, whether it is
    checked. *)
Record checkbox : Type := mkCheckbox {
  cb_text : String.string;
  cb_visible : bool;
  cb_checked : bool
}.

(** [update_harmonic_checkboxes] *)
Definition update_harmonic_checkboxes (n_harmonics : Z) (boxes : list checkbox)
  : list checkbox :=
  map (fun ic : nat * checkbox =>
         let '(i, cb) := ic in
         if (Z.of_nat i <? n_harmonics)%Z
         then {| cb_text :=
                   String.append "H"
                     (DecimalString.NilEmpty.string_of_uint (Nat.to_uint (i + 1)));
                 cb_visible := true;
                 cb_checked := true |}
         else {| cb_text := cb_text cb;
                 cb_visible := false;
                 cb_checked := false |})
      (enumerate boxes).

(** [update_selective_synthesis]: the mask is read off the check boxes. *)
Definition update_selective_synthesis (self : analyzer) (a0 : R)
    (an bn t_data : list R) (boxes : list checkbox) : result (list R) :=
  let enabled := map cb_checked boxes in
  synthesize_selective self a0 an bn t_data enabled.

(** [np.sqrt(np.mean(d**2))], which is [nan] for an empty [d]. *)
Definition rms_of (d : list R) : np_float :=
  match d with
  | [] => NaN
  | _ => Finite (sqrt (np_mean (np_square d)))
  end.

(** The reconstruction with the first [h] harmonics, as the convergence
    loops of [update_analysis] and [update_convergence_plot] build it. *)
Definition reconstruct_first (self : analyzer) (a0 : R) (an bn t : list R)
    (h : nat) : result (list R) :=
  for_each (add_harmonic self an bn t) (seq 0 h)
    (scale (a0 / 2) (np_ones_like t)).

(** The convergence data of [update_analysis]: the RMS error of the
    reconstruction with [h] harmonics, for [h = 1 .. len(an)]. *)
Definition convergence_rms_errors (self : analyzer) (a0 : R)
    (an bn t_data original_data : list R) : result (list np_float) :=
  for_each
    (fun rms_errors h =>
       reconstruction <- reconstruct_first self a0 an bn t_data h ;;
       d <- broadcast2 Rminus original_data reconstruction ;;
       Ok (rms_errors ++ [rms_of d]))
    (seq 1 (length an)) [].

(** ** Closed forms used in the statements *)

(** The DC-only signal, [a0/2 * np.ones_like(t)]. *)
Definition dc_signal (a0 : R) (t : list R) : list R :=
  scale (a0 / 2) (np_ones_like t).

(** [signal] after harmonic [n + 1] was added to it. *)
Definition harmonic_term (self : analyzer) (an bn t : list R)
    (signal : list R) (n : nat) : list R :=
  zip_with Rplus
    (zip_with Rplus signal
       (scale (nth n an 0) (np_cos (scale (INR (n + 1) * omega0 self) t))))
    (scale (nth n bn 0) (np_sin (scale (INR (n + 1) * omega0 self) t))).

(** The DC term plus harmonics [1 .. i]. *)
Definition partial_sum (self : analyzer) (a0 : R) (an bn t : list R) (i : nat)
  : list R :=
  fold_left (harmonic_term self an bn t) (seq 0 i) (dc_signal a0 t).

(** One sample of [harmonic_term]. *)
Definition harmonic_sample (self : analyzer) (an bn : list R) (ti : R)
    (s : R) (n : nat) : R :=
  s + nth n an 0 * cos (INR (n + 1) * omega0 self * ti)
    + nth n bn 0 * sin (INR (n + 1) * omega0 self * ti).

(** What a caller can observe of the arrays a call hands back.  [h] is the
    heap before the call, [h'] the heap after it, [ps] the addresses
    returned.  Every array that existed before the call is unchanged; every
    returned array is a new object; and writing anything to one returned
    array changes neither another returned array nor an array that existed
    before the call. *)
Definition unchanged (h h' : heap) : Prop :=
  forall q, (q < length h)%nat -> load h' q = load h q.

Definition fresh (h h' : heap) (ps : list addr) : Prop :=
  Forall (fun p => (length h <= p < length h')%nat) ps.

Definition independent (h h' : heap) (ps : list addr) : Prop :=
  forall i v,
    (i < length ps)%nat ->
    (forall j, (j < length ps)%nat -> j <> i ->
       load (store h' (nth i ps O) v) (nth j ps O) = load h' (nth j ps O)) /\
    (forall q, (q < length h)%nat -> load (store h' (nth i ps O) v) q = load h q).

(** The sample points of [compute_coefficients]:
    [np.linspace(0, T, n, endpoint=False)]. *)
Definition sample_grid (T : R) (n : Z) : list R :=
  map (fun i => INR i * ((T - 0) / IZR n) + 0) (seq 0 (Z.to_nat n)).

(** The value of [np.trapz(y, x)] when the shapes agree. *)
Definition trapz_sum (y x : list R) : R :=
  np_sum (map (fun v => v / 2)
            (zip_with Rmult (np_diff x) (zip_with Rplus (tl y) (removelast y)))).

(** [f_samples * np.cos(n * omega0 * t)] and
    [f_samples * np.sin(n * omega0 * t)]. *)
Definition cos_samples (self : analyzer) (y t : list R) (n : nat) : list R :=
  zip_with Rmult y (np_cos (scale (INR n * omega0 self) t)).

Definition sin_samples (self : analyzer) (y t : list R) (n : nat) : list R :=
  zip_with Rmult y (np_sin (scale (INR n * omega0 self) t)).

(** A coefficient as the specification defines it: [2/T] times the
    integral over one full period. *)
Definition spec_coefficient (T : R) (y t : list R) : result R :=
  i <- spec_full_period_integral T y t ;;
  Ok (2 / T * i).

(** * Proofs *)

(** ** Loops and lists *)

Lemma for_each_app {A S : Type} (body : S -> A -> result S) (xs ys : list A) (s : S) :
  for_each body (xs ++ ys) s = (s' <- for_each body xs s ;; for_each body ys s').
Proof.
  revert s; induction xs as [|x xs IH]; intros s; simpl; [reflexivity|].
  destruct (body s x); simpl; auto.
Qed.

(** A loop whose body never raises on the elements it meets is a fold. *)
Lemma for_each_pure {A S : Type} (body : S -> A -> result S) (f : S -> A -> S)
    (xs : list A) :
  (forall s x, In x xs -> body s x = Ok (f s x)) ->
  forall s, for_each body xs s = Ok (fold_left f xs s).
Proof.
  induction xs as [|x xs IH]; intros Hb s; simpl; [reflexivity|].
  rewrite Hb by (left; reflexivity). simpl.
  apply IH. intros; apply Hb; right; assumption.
Qed.

Lemma fold_left_ext_in {A B : Type} (f g : A -> B -> A) (l : list B) :
  (forall a b, In b l -> f a b = g a b) ->
  forall a, fold_left f l a = fold_left g l a.
Proof.
  induction l as [|b l IH]; intros H a; simpl; [reflexivity|].
  rewrite H by (left; reflexivity).
  apply IH. intros; apply H; right; assumption.
Qed.

Lemma fold_left_skip {A B : Type} (f : A -> B -> A) (l : list B) :
  (forall a b, In b l -> f a b = a) ->
  forall a, fold_left f l a = a.
Proof.
  induction l as [|b l IH]; intros H a; simpl; [reflexivity|].
  rewrite H by (left; reflexivity).
  apply IH. intros; apply H; right; assumption.
Qed.

Lemma zip_with_length {A B C : Type} (f : A -> B -> C) (xs : list A) (ys : list B) :
  length (zip_with f xs ys) = Nat.min (length xs) (length ys).
Proof.
  revert ys; induction xs as [|x xs IH]; intros [|y ys]; simpl; auto.
Qed.

Lemma zip_with_map {A B C D : Type} (f : B -> C -> D) (g : A -> B) (h : A -> C)
    (l : list A) :
  zip_with f (map g l) (map h l) = map (fun x => f (g x) (h x)) l.
Proof. induction l as [|x l IH]; simpl; [reflexivity | now rewrite IH]. Qed.

Lemma combine_app_same {A B : Type} (l1 l2 : list A) (m1 m2 : list B) :
  length l1 = length m1 ->
  combine (l1 ++ l2) (m1 ++ m2) = combine l1 m1 ++ combine l2 m2.
Proof.
  revert m1; induction l1 as [|x l1 IH]; intros [|y m1] H; simpl in *;
    try discriminate; [reflexivity|].
  f_equal. apply IH. congruence.
Qed.

Lemma enumerate_snoc {A : Type} (l : list A) (x : A) :
  enumerate (l ++ [x]) = enumerate l ++ [(length l, x)].
Proof.
  unfold enumerate. rewrite length_app, seq_app. simpl.
  now rewrite combine_app_same by apply length_seq.
Qed.

Lemma enumerate_length {A : Type} (l : list A) : length (enumerate l) = length l.
Proof. unfold enumerate. rewrite length_combine, length_seq. apply Nat.min_id. Qed.

(** A fold over [enumerate l] is a fold over the indices of [l]. *)
Lemma fold_enumerate {A S : Type} (f : S -> nat -> A -> S) (d : A) (l : list A) :
  forall s,
    fold_left (fun s ne => f s (fst ne) (snd ne)) (enumerate l) s
    = fold_left (fun s n => f s n (nth n l d)) (seq 0 (length l)) s.
Proof.
  induction l as [|x l IH] using rev_ind; intros s; [reflexivity|].
  rewrite enumerate_snoc, length_app. simpl length.
  rewrite seq_app, !fold_left_app. simpl.
  rewrite IH. rewrite nth_middle. f_equal.
  apply fold_left_ext_in. intros a n Hn. apply in_seq in Hn.
  now rewrite app_nth1 by lia.
Qed.

Lemma getitem_nth (a : list R) (i : nat) :
  (i < length a)%nat -> getitem a i = Ok (nth i a 0).
Proof.
  intros H. unfold getitem.
  destruct (nth_error a i) eqn:E.
  - now rewrite (nth_error_nth _ _ _ E).
  - apply nth_error_None in E. lia.
Qed.

Lemma dc_signal_repeat (a0 : R) (t : list R) :
  dc_signal a0 t = repeat (a0 / 2) (length t).
Proof.
  unfold dc_signal, scale, np_ones_like.
  induction t as [|x t IH]; simpl; [reflexivity|].
  now rewrite IH, Rmult_1_r.
Qed.

Lemma dc_signal_map (a0 : R) (t : list R) :
  dc_signal a0 t = map (fun _ => a0 / 2) t.
Proof.
  unfold dc_signal, scale, np_ones_like. rewrite map_map.
  apply map_ext. intros _. apply Rmult_1_r.
Qed.

Lemma fold_cond_trunc {S : Type} (f : S -> nat -> S) (c : nat -> bool) (K M : nat) :
  (K <= M)%nat ->
  (forall n, (K <= n < M)%nat -> c n = false) ->
  forall s,
    fold_left (fun s n => if c n then f s n else s) (seq 0 M) s
    = fold_left (fun s n => if c n then f s n else s) (seq 0 K) s.
Proof.
  intros HK Hc s.
  replace M with (K + (M - K))%nat by lia.
  rewrite seq_app, fold_left_app. simpl.
  apply fold_left_skip. intros a n Hn. apply in_seq in Hn.
  now rewrite Hc by lia.
Qed.

(** ** The synthesizer *)

Section Synthesizer.

Variable self : analyzer.
Variables an bn t : list R.

Lemma add_harmonic_ok (signal : list R) (n : nat) :
  (n < length an)%nat -> (n < length bn)%nat ->
  add_harmonic self an bn t signal n = Ok (harmonic_term self an bn t signal n).
Proof.
  intros Ha Hb. unfold add_harmonic.
  rewrite (getitem_nth an n Ha). simpl.
  rewrite (getitem_nth bn n Hb). reflexivity.
Qed.

(** On a signal given sample by sample, adding a harmonic acts sample by
    sample. *)
Lemma harmonic_term_map (g : R -> R) (n : nat) :
  harmonic_term self an bn t (map g t) n
  = map (fun ti => harmonic_sample self an bn ti (g ti) n) t.
Proof.
  unfold harmonic_term, harmonic_sample, scale, np_cos, np_sin.
  rewrite !map_map.
  rewrite (zip_with_map Rplus g). rewrite zip_with_map. reflexivity.
Qed.

Lemma fold_harmonic_map (c : nat -> bool) (l : list nat) :
  forall g : R -> R,
    fold_left (fun s n => if c n then harmonic_term self an bn t s n else s)
      l (map g t)
    = map (fun ti =>
             fold_left
               (fun s n => if c n then harmonic_sample self an bn ti s n else s)
               l (g ti)) t.
Proof.
  induction l as [|n l IH]; intros g; simpl; [reflexivity|].
  destruct (c n).
  - rewrite harmonic_term_map. apply (IH (fun ti => harmonic_sample self an bn ti (g ti) n)).
  - apply IH.
Qed.

Lemma harmonic_term_length (signal : list R) (n : nat) :
  length signal = length t ->
  length (harmonic_term self an bn t signal n) = length t.
Proof.
  intros H. unfold harmonic_term, scale, np_cos, np_sin.
  rewrite !zip_with_length, !length_map, H. lia.
Qed.

Lemma partial_sum_S (a0 : R) (i : nat) :
  partial_sum self a0 an bn t (S i)
  = harmonic_term self an bn t (partial_sum self a0 an bn t i) i.
Proof. unfold partial_sum. now rewrite seq_S, fold_left_app. Qed.

Lemma partial_sum_length (a0 : R) (i : nat) :
  length (partial_sum self a0 an bn t i) = length t.
Proof.
  induction i as [|i IH].
  - unfold partial_sum, dc_signal, scale, np_ones_like. simpl.
    now rewrite !length_map.
  - rewrite partial_sum_S. now apply harmonic_term_length.
Qed.

(** The loop of [synthesize_progressive] after [len] rounds. *)
Lemma progressive_loop (a0 : R) (len : nat) :
  (len <= length an)%nat -> (len <= length bn)%nat ->
  for_each (progressive_step self an bn t) (seq 0 len)
    (dc_signal a0 t, [dc_signal a0 t])
  = Ok (partial_sum self a0 an bn t len,
        map (partial_sum self a0 an bn t) (seq 0 (S len))).
Proof.
  induction len as [|len IH]; intros Ha Hb; [reflexivity|].
  rewrite seq_S, for_each_app, IH by lia. simpl bind.
  cbn [for_each progressive_step Nat.add].
  rewrite add_harmonic_ok by lia. simpl bind.
  rewrite <- partial_sum_S.
  rewrite (seq_S (S len) 0), map_app. reflexivity.
Qed.

Lemma synthesize_progressive_closed (a0 : R) :
  (length an <= length bn)%nat ->
  synthesize_progressive self a0 an bn t
  = Ok (map (partial_sum self a0 an bn t) (seq 0 (S (length an)))).
Proof.
  intros H. unfold synthesize_progressive.
  fold (dc_signal a0 t). now rewrite progressive_loop.
Qed.

(** The loop of [synthesize_selective] as a fold over the mask's indices. *)
Lemma synthesize_selective_closed (a0 : R) (mask : list bool) :
  (length an <= length bn)%nat ->
  synthesize_selective self a0 an bn t mask
  = Ok (fold_left
          (fun s n =>
             if nth n mask false && (n <? length an)%nat
             then harmonic_term self an bn t s n else s)
          (seq 0 (length mask)) (dc_signal a0 t)).
Proof.
  intros H. unfold synthesize_selective. fold (dc_signal a0 t).
  rewrite (for_each_pure _
    (fun s ne => if snd ne && (fst ne <? length an)%nat
                 then harmonic_term self an bn t s (fst ne) else s)).
  - f_equal.
    apply (fold_enumerate
             (fun s n e => if e && (n <? length an)%nat
                           then harmonic_term self an bn t s n else s) false).
  - intros s [n e] _. unfold selective_step. simpl.
    destruct e; simpl; [|reflexivity].
    destruct (n <? length an)%nat eqn:E; [|reflexivity].
    apply Nat.ltb_lt in E. apply add_harmonic_ok; lia.
Qed.

(** The mask only matters below [min (length mask) N]. *)
Lemma selective_fold_range {S : Type} (f : S -> nat -> S) (mask : list bool) (s : S) :
  fold_left
    (fun s n => if nth n mask false && (n <? length an)%nat then f s n else s)
    (seq 0 (length mask)) s
  = fold_left (fun s n => if nth n mask false then f s n else s)
      (seq 0 (length an)) s.
Proof.
  set (K := Nat.min (length mask) (length an)).
  rewrite (fold_cond_trunc f (fun n => nth n mask false && (n <? length an)%nat)
             K (length mask)); [| subst K; lia |].
  - rewrite (fold_cond_trunc f (fun n => nth n mask false) K (length an));
      [| subst K; lia |].
    + apply fold_left_ext_in. intros a n Hn. apply in_seq in Hn.
      assert (E : (n <? length an)%nat = true) by (apply Nat.ltb_lt; subst K; lia).
      now rewrite E, andb_true_r.
    + intros n Hn. apply nth_overflow. subst K. lia.
  - intros n Hn.
    destruct (Nat.ltb_spec n (length an)); [|apply andb_false_r].
    rewrite nth_overflow by (subst K; lia). reflexivity.
Qed.

Lemma synthesize_selective_spec (a0 : R) (mask : list bool) :
  (length an <= length bn)%nat ->
  synthesize_selective self a0 an bn t mask
  = Ok (spec_selective self a0 an bn t mask).
Proof.
  intros H. rewrite synthesize_selective_closed by assumption. f_equal.
  rewrite selective_fold_range, dc_signal_map.
  rewrite (fold_harmonic_map (fun n => nth n mask false)).
  reflexivity.
Qed.

Lemma spec_selective_ext (a0 : R) (m1 m2 : list bool) :
  (forall k, (k < length an)%nat -> nth k m1 false = nth k m2 false) ->
  spec_selective self a0 an bn t m1 = spec_selective self a0 an bn t m2.
Proof.
  intros H. unfold spec_selective. apply map_ext. intros ti.
  unfold spec_selective_sample. apply fold_left_ext_in.
  intros s k Hk. apply in_seq in Hk. now rewrite H by lia.
Qed.

End Synthesizer.

Lemma nth_map_lt {A B : Type} (f : A -> B) (l : list A) (j : nat) (d : A) (e : B) :
  (j < length l)%nat -> nth j (map f l) e = f (nth j l d).
Proof.
  intros H. rewrite (nth_indep _ e (f d)) by now rewrite length_map.
  apply map_nth.
Qed.

Lemma nth_zip_with {A B C : Type} (f : A -> B -> C) (xs : list A) (ys : list B)
    (j : nat) (dx : A) (dy : B) (d : C) :
  (j < length xs)%nat -> (j < length ys)%nat ->
  nth j (zip_with f xs ys) d = f (nth j xs dx) (nth j ys dy).
Proof.
  revert ys j; induction xs as [|x xs IH]; intros [|y ys] [|j] Hx Hy;
    simpl in *; try lia; [reflexivity|].
  apply IH; lia.
Qed.

(** One sample of a signal after a harmonic was added. *)
Lemma harmonic_term_nth (self : analyzer) (an bn t signal : list R) (n j : nat) :
  length signal = length t -> (j < length t)%nat ->
  nth j (harmonic_term self an bn t signal n) 0
  = harmonic_sample self an bn (nth j t 0) (nth j signal 0) n.
Proof.
  intros Hl Hj. unfold harmonic_term, harmonic_sample, scale, np_cos, np_sin.
  rewrite !map_map.
  rewrite (nth_zip_with Rplus _ _ j 0 0);
    [| rewrite zip_with_length, length_map; lia | rewrite length_map; lia].
  rewrite (nth_zip_with Rplus _ _ j 0 0); [| lia | rewrite length_map; lia].
  now rewrite !(nth_map_lt _ t j 0) by assumption.
Qed.

(** C3.  [synthesize_progressive] returns [N + 1] arrays; the first is
    [a0/2] at every sample, and for [1 <= i <= N] array [i] is array
    [i - 1] plus [an[i-1] * cos(i * omega0 * t) + bn[i-1] * sin(i * omega0 * t)],
    sample by sample. *)
Theorem synthesize_progressive_sequence
    (self : analyzer) (a0 : R) (an bn t : list R) :
  length an = length bn ->
  exists recs,
    synthesize_progressive self a0 an bn t = Ok recs /\
    length recs = S (length an) /\
    nth 0 recs [] = repeat (a0 / 2) (length t) /\
    forall i, (1 <= i <= length an)%nat ->
      length (nth i recs []) = length t /\
      forall j, (j < length t)%nat ->
        nth j (nth i recs []) 0
        = nth j (nth (i - 1) recs []) 0
          + (nth (i - 1) an 0 * cos (INR i * omega0 self * nth j t 0)
             + nth (i - 1) bn 0 * sin (INR i * omega0 self * nth j t 0)).
Proof.
  intros Hlen.
  exists (map (partial_sum self a0 an bn t) (seq 0 (S (length an)))).
  split; [apply synthesize_progressive_closed; lia|].
  split; [now rewrite length_map, length_seq|].
  split; [apply dc_signal_repeat|].
  intros i Hi.
  assert (Hn : forall k, (k <= length an)%nat ->
            nth k (map (partial_sum self a0 an bn t) (seq 0 (S (length an)))) []
            = partial_sum self a0 an bn t k).
  { intros k Hk. rewrite (nth_map_lt _ _ k 0%nat) by (rewrite length_seq; lia).
    now rewrite seq_nth by lia. }
  rewrite !Hn by lia.
  split; [apply partial_sum_length|].
  intros j Hj.
  replace i with (S (i - 1)) at 1 by lia.
  rewrite partial_sum_S, harmonic_term_nth by (auto using partial_sum_length).
  unfold harmonic_sample.
  replace (i - 1 + 1)%nat with i by lia. ring.
Qed.

Lemma synthesize_progressive_sequence_witness :
  exists recs,
    synthesize_progressive (mkAnalyzer 1 (2 * PI)) 1 [1] [0] [0] = Ok recs /\
    length recs = 2%nat /\
    nth 0 recs [] = repeat (1 / 2) 1 /\
    forall i, (1 <= i <= 1)%nat ->
      length (nth i recs []) = 1%nat /\
      forall j, (j < 1)%nat ->
        nth j (nth i recs []) 0
        = nth j (nth (i - 1) recs []) 0
          + (nth (i - 1) [1] 0 * cos (INR i * (2 * PI) * nth j [0] 0)
             + nth (i - 1) [0] 0 * sin (INR i * (2 * PI) * nth j [0] 0)).
Proof.
  apply (synthesize_progressive_sequence (mkAnalyzer 1 (2 * PI)) 1 [1] [0] [0]).
  reflexivity.
Defined.

(** C2.  The last array of [synthesize_progressive], at index [N], is the
    array [synthesize_selective] returns for the all-true mask of length
    [N]. *)
Theorem progressive_last_is_selective_all
    (self : analyzer) (a0 : R) (an bn t : list R) :
  length an = length bn ->
  exists recs sel,
    synthesize_progressive self a0 an bn t = Ok recs /\
    synthesize_selective self a0 an bn t (repeat true (length an)) = Ok sel /\
    nth (length an) recs [] = sel.
Proof.
  intros Hlen.
  eexists; eexists.
  split; [apply synthesize_progressive_closed; lia|].
  split; [apply synthesize_selective_closed; lia|].
  rewrite (nth_map_lt _ _ _ 0%nat) by (rewrite length_seq; lia).
  rewrite seq_nth by lia. rewrite repeat_length.
  unfold partial_sum. simpl.
  apply fold_left_ext_in. intros s n Hn. apply in_seq in Hn.
  rewrite nth_repeat_lt by lia.
  assert (E : (n <? length an)%nat = true) by (apply Nat.ltb_lt; lia).
  now rewrite E.
Qed.

Lemma progressive_last_is_selective_all_witness :
  exists recs sel,
    synthesize_progressive (mkAnalyzer 1 (2 * PI)) 1 [1; 2] [3; 4] [0; 1] = Ok recs /\
    synthesize_selective (mkAnalyzer 1 (2 * PI)) 1 [1; 2] [3; 4] [0; 1]
      (repeat true 2) = Ok sel /\
    nth 2 recs [] = sel.
Proof.
  apply (progressive_last_is_selective_all
           (mkAnalyzer 1 (2 * PI)) 1 [1; 2] [3; 4] [0; 1]).
  reflexivity.
Defined.

(** C4.  With no coefficients, or with a mask that enables nothing,
    [synthesize_selective] returns without raising, and the array it
    returns is [a0/2] at every sample position. *)
Theorem synthesize_selective_zero_harmonics
    (self : analyzer) (a0 : R) (an bn t : list R) (mask : list bool) :
  an = [] \/ forallb negb mask = true ->
  synthesize_selective self a0 an bn t mask = Ok (repeat (a0 / 2) (length t)).
Proof.
  intros H. unfold synthesize_selective. fold (dc_signal a0 t).
  rewrite (for_each_pure _ (fun s _ => s)).
  - now rewrite fold_left_skip, dc_signal_repeat.
  - intros s [n e] Hin. unfold selective_step.
    destruct H as [-> | Hm].
    + simpl. now rewrite andb_false_r.
    + apply in_combine_r in Hin.
      rewrite forallb_forall in Hm. specialize (Hm e Hin).
      destruct e; [discriminate | reflexivity].
Qed.

Lemma synthesize_selective_zero_harmonics_witness :
  synthesize_selective (mkAnalyzer 1 (2 * PI)) 3 [1; 2] [5] [0; 1; 2] [false; false; false]
  = Ok (repeat (3 / 2) 3).
Proof.
  apply (synthesize_selective_zero_harmonics
           (mkAnalyzer 1 (2 * PI)) 3 [1; 2] [5] [0; 1; 2] [false; false; false]).
  right. reflexivity.
Defined.

(** C7.  [synthesize_selective] adds harmonic [k + 1] exactly when
    [k < N] and [mask[k]] is true: whatever the length of the mask, it
    returns without an index error the sum the specification describes;
    mask entries at indices [>= N] do not matter, and a mask shorter than
    [N] gives what the mask padded with [false] gives. *)
Theorem synthesize_selective_mask
    (self : analyzer) (a0 : R) (an bn t : list R) (mask : list bool) :
  length an = length bn ->
  synthesize_selective self a0 an bn t mask
    = Ok (spec_selective self a0 an bn t mask) /\
  synthesize_selective self a0 an bn t (firstn (length an) mask)
    = synthesize_selective self a0 an bn t mask /\
  forall k,
    synthesize_selective self a0 an bn t (mask ++ repeat false k)
    = synthesize_selective self a0 an bn t mask.
Proof.
  intros Hlen.
  assert (Hle : (length an <= length bn)%nat) by lia.
  split; [now apply synthesize_selective_spec|].
  split.
  - rewrite !synthesize_selective_spec by assumption. f_equal.
    apply spec_selective_ext. intros k Hk.
    now rewrite nth_firstn, (proj2 (Nat.ltb_lt _ _) Hk).
  - intros k. rewrite !synthesize_selective_spec by assumption. f_equal.
    apply spec_selective_ext. intros i _.
    destruct (Nat.lt_ge_cases i (length mask)) as [Hi | Hi].
    + now rewrite app_nth1.
    + rewrite app_nth2 by assumption.
      rewrite (nth_overflow mask) by assumption.
      destruct (Nat.lt_ge_cases (i - length mask) k) as [Hk | Hk].
      * now rewrite nth_repeat_lt.
      * apply nth_overflow. now rewrite repeat_length.
Qed.

Lemma synthesize_selective_mask_witness :
  synthesize_selective (mkAnalyzer 1 (2 * PI)) 1 [1; 2] [3; 4] [0; 1] [true; false; true]
    = Ok (spec_selective (mkAnalyzer 1 (2 * PI)) 1 [1; 2] [3; 4] [0; 1]
            [true; false; true]) /\
  synthesize_selective (mkAnalyzer 1 (2 * PI)) 1 [1; 2] [3; 4] [0; 1]
      (firstn 2 [true; false; true])
    = synthesize_selective (mkAnalyzer 1 (2 * PI)) 1 [1; 2] [3; 4] [0; 1]
        [true; false; true] /\
  forall k,
    synthesize_selective (mkAnalyzer 1 (2 * PI)) 1 [1; 2] [3; 4] [0; 1]
      ([true; false; true] ++ repeat false k)
    = synthesize_selective (mkAnalyzer 1 (2 * PI)) 1 [1; 2] [3; 4] [0; 1]
        [true; false; true].
Proof.
  apply (synthesize_selective_mask
           (mkAnalyzer 1 (2 * PI)) 1 [1; 2] [3; 4] [0; 1] [true; false; true]).
  reflexivity.
Defined.

(** ** The store *)

Lemma load_app_old (h l : heap) (q : addr) :
  (q < length h)%nat -> load (h ++ l) q = load h q.
Proof. intros H. unfold load. now apply app_nth1. Qed.

Lemma load_app_new (h l : heap) (i : nat) :
  load (h ++ l) (length h + i)%nat = nth i l [].
Proof.
  unfold load. rewrite app_nth2 by lia. f_equal. lia.
Qed.

Lemma store_middle (h rest : heap) (x y : list R) :
  store (h ++ x :: rest) (length h) y = h ++ y :: rest.
Proof. induction h as [|z h IH]; simpl; [reflexivity | now rewrite IH]. Qed.

Lemma store_length (h : heap) (p : addr) (a : list R) :
  length (store h p a) = length h.
Proof.
  revert p; induction h as [|x h IH]; intros [|p]; simpl; auto.
Qed.

Lemma load_store_other (h : heap) (p q : addr) (a : list R) :
  p <> q -> load (store h p a) q = load h q.
Proof.
  unfold load. revert p q; induction h as [|x h IH]; intros [|p] [|q] H;
    simpl; try reflexivity; try congruence.
  apply IH. congruence.
Qed.

Lemma fresh_independent (h h' : heap) (ps : list addr) :
  unchanged h h' -> fresh h h' ps -> NoDup ps -> independent h h' ps.
Proof.
  intros Hu Hf Hn i v Hi. unfold fresh in Hf. rewrite Forall_forall in Hf.
  assert (Hp := Hf _ (nth_In ps O Hi)).
  split.
  - intros j Hj Hji. apply load_store_other.
    intros E. apply Hji. symmetry.
    exact (proj1 (NoDup_nth ps O) Hn i j Hi Hj E).
  - intros q Hq. rewrite load_store_other by lia. now apply Hu.
Qed.

Lemma load_middle (h rest : heap) (x : list R) :
  load (h ++ x :: rest) (length h) = x.
Proof. unfold load. apply nth_middle. Qed.

Section SynthesizerInMemory.

Variable self : analyzer.
Variable a0 : R.
Variable h : heap.
Variables p_an p_bn p_t : addr.
Hypothesis an_valid : (p_an < length h)%nat.
Hypothesis bn_valid : (p_bn < length h)%nat.
Hypothesis t_valid : (p_t < length h)%nat.

Local Abbreviation an := (load h p_an).
Local Abbreviation bn := (load h p_bn).
Local Abbreviation t := (load h p_t).

(** With [signal] the object allocated right after the caller's heap,
    the two in-place additions rewrite that object and nothing else. *)
Lemma add_harmonic_mem_ok (x : list R) (rest : heap) (n : nat) :
  (n < length an)%nat -> (n < length bn)%nat ->
  add_harmonic_mem self p_an p_bn p_t (length h) n (h ++ x :: rest)
  = Ok (h ++ harmonic_term self an bn t x n :: rest).
Proof.
  intros Ha Hb. unfold add_harmonic_mem.
  rewrite (load_app_old h _ p_an), (load_app_old h _ p_t), load_middle
    by assumption.
  fold an. rewrite (getitem_nth an n Ha). simpl bind.
  rewrite store_middle.
  rewrite (load_app_old h _ p_bn), (load_app_old h _ p_t), load_middle
    by assumption.
  fold bn. rewrite (getitem_nth bn n Hb). simpl bind.
  rewrite store_middle. reflexivity.
Qed.

Lemma progressive_loop_mem (k : nat) :
  (k <= length an)%nat -> (k <= length bn)%nat ->
  for_each (progressive_step_mem self p_an p_bn p_t (length h)) (seq 0 k)
    (h ++ [dc_signal a0 t; dc_signal a0 t], [S (length h)])
  = Ok (h ++ partial_sum self a0 an bn t k
             :: map (partial_sum self a0 an bn t) (seq 0 (S k)),
        seq (S (length h)) (S k)).
Proof.
  induction k as [|k IH]; intros Ha Hb; [reflexivity|].
  rewrite seq_S, for_each_app, IH by lia.
  cbn [bind for_each progressive_step_mem Nat.add].
  rewrite add_harmonic_mem_ok by lia. cbn [bind].
  rewrite <- partial_sum_S. unfold alloc. rewrite load_middle.
  cbn [bind for_each].
  f_equal. f_equal.
  - rewrite <- app_assoc. cbn [app]. f_equal. f_equal.
    now rewrite (seq_S (S k) 0), map_app.
  - rewrite (seq_S (S k)). f_equal. f_equal.
    rewrite length_app. cbn [length]. rewrite length_map, length_seq. lia.
Qed.

Lemma synthesize_progressive_mem_closed :
  (length an <= length bn)%nat ->
  synthesize_progressive_mem self a0 p_an p_bn p_t h
  = Ok (seq (S (length h)) (S (length an)),
        h ++ partial_sum self a0 an bn t (length an)
          :: map (partial_sum self a0 an bn t) (seq 0 (S (length an)))).
Proof.
  intros Hle. unfold synthesize_progressive_mem, alloc.
  fold t. fold (dc_signal a0 t).
  rewrite (load_middle h []).
  rewrite <- app_assoc. simpl app.
  rewrite load_app_old by assumption. fold an.
  replace (length (h ++ [dc_signal a0 t])) with (S (length h))
    by (rewrite length_app; simpl; lia).
  now rewrite progressive_loop_mem.
Qed.

Lemma selective_loop_mem (l : list (nat * bool)) :
  (length an <= length bn)%nat ->
  forall x,
    for_each (selective_step_mem self p_an p_bn p_t (length h)) l (h ++ [x])
    = Ok (h ++ [fold_left
                  (fun s ne =>
                     if snd ne && (fst ne <? length an)%nat
                     then harmonic_term self an bn t s (fst ne) else s)
                  l x]).
Proof.
  intros Hle. induction l as [|[n e] l IH]; intros x; [reflexivity|].
  cbn [for_each selective_step_mem fold_left fst snd].
  rewrite load_app_old by assumption. fold an.
  destruct (e && (n <? length an)%nat) eqn:E.
  - apply andb_prop in E. destruct E as [_ E]. apply Nat.ltb_lt in E.
    rewrite add_harmonic_mem_ok by lia. simpl bind. apply IH.
  - simpl bind. apply IH.
Qed.

Lemma synthesize_selective_mem_closed (mask : list bool) :
  (length an <= length bn)%nat ->
  exists sel,
    synthesize_selective self a0 an bn t mask = Ok sel /\
    synthesize_selective_mem self a0 p_an p_bn p_t mask h
    = Ok (length h, h ++ [sel]).
Proof.
  intros Hle. eexists. split.
  - unfold synthesize_selective.
    apply (for_each_pure _
      (fun s ne => if snd ne && (fst ne <? length an)%nat
                   then harmonic_term self an bn t s (fst ne) else s)).
    intros s [n e] _. unfold selective_step. simpl.
    destruct (e && (n <? length an)%nat) eqn:E; [|reflexivity].
    apply andb_prop in E. destruct E as [_ E]. apply Nat.ltb_lt in E.
    apply add_harmonic_ok; lia.
  - unfold synthesize_selective_mem, alloc. fold t.
    now rewrite selective_loop_mem.
Qed.

End SynthesizerInMemory.

Lemma load_allocated (l h : heap) :
  map (load (h ++ l)) (seq (length h) (length l)) = l.
Proof.
  revert h; induction l as [|y l IH]; intros h; [reflexivity|].
  cbn [length seq map]. rewrite load_middle. f_equal.
  replace (h ++ y :: l) with ((h ++ [y]) ++ l) by now rewrite <- app_assoc.
  replace (S (length h)) with (length (h ++ [y]))
    by (rewrite length_app; simpl; lia).
  apply IH.
Qed.

Lemma unchanged_app (h l : heap) : unchanged h (h ++ l).
Proof. intros q Hq. now apply load_app_old. Qed.

(** C9.  Both synthesis functions leave every array that existed before
    the call (so [an], [bn] and [t]) as it was, and every array they hand
    back is a new object: the addresses returned are pairwise different and
    different from every earlier one, so that overwriting one returned array
    changes no other returned array and no input.  The arrays hold what the
    value-level functions compute. *)
Theorem synthesis_shares_no_storage
    (self : analyzer) (a0 : R) (h : heap) (p_an p_bn p_t : addr)
    (mask : list bool) :
  (p_an < length h)%nat -> (p_bn < length h)%nat -> (p_t < length h)%nat ->
  length (load h p_an) = length (load h p_bn) ->
  (exists ps h' recs,
     synthesize_progressive_mem self a0 p_an p_bn p_t h = Ok (ps, h') /\
     synthesize_progressive self a0 (load h p_an) (load h p_bn) (load h p_t)
       = Ok recs /\
     map (load h') ps = recs /\
     unchanged h h' /\ fresh h h' ps /\ NoDup ps /\ independent h h' ps) /\
  (exists p h' sel,
     synthesize_selective_mem self a0 p_an p_bn p_t mask h = Ok (p, h') /\
     synthesize_selective self a0 (load h p_an) (load h p_bn) (load h p_t) mask
       = Ok sel /\
     load h' p = sel /\
     unchanged h h' /\ fresh h h' [p] /\ independent h h' [p]).
Proof.
  intros Han Hbn Ht Hlen.
  assert (Hle : (length (load h p_an) <= length (load h p_bn))%nat) by lia.
  split.
  - do 3 eexists.
    split; [now apply synthesize_progressive_mem_closed|].
    split; [now apply synthesize_progressive_closed|].
    set (M := map _ (seq 0 (S (length (load h p_an))))).
    set (x := partial_sum _ _ _ _ _ _).
    assert (HM : length M = S (length (load h p_an)))
      by (subst M; now rewrite length_map, length_seq).
    assert (Hu : unchanged h (h ++ x :: M)) by apply unchanged_app.
    assert (Hf : fresh h (h ++ x :: M) (seq (S (length h)) (S (length (load h p_an))))).
    { apply Forall_forall. intros p Hp. apply in_seq in Hp.
      rewrite length_app. cbn [length]. lia. }
    assert (Hn : NoDup (seq (S (length h)) (S (length (load h p_an)))))
      by apply seq_NoDup.
    split.
    { replace (h ++ x :: M) with ((h ++ [x]) ++ M) by now rewrite <- app_assoc.
      replace (S (length h)) with (length (h ++ [x]))
        by (rewrite length_app; simpl; lia).
      rewrite <- HM. apply load_allocated. }
    auto using fresh_independent.
  - destruct (synthesize_selective_mem_closed self a0 h p_an p_bn p_t
                Han Hbn Ht mask Hle) as [sel [Hsel Hmem]].
    exists (length h), (h ++ [sel]), sel.
    assert (Hu : unchanged h (h ++ [sel])) by apply unchanged_app.
    assert (Hf : fresh h (h ++ [sel]) [length h]).
    { constructor; [|constructor]. rewrite length_app. simpl. lia. }
    assert (Hn : NoDup [length h]) by (constructor; [intros [] | constructor]).
    repeat split; auto using fresh_independent, load_middle.
    + apply (fresh_independent h (h ++ [sel]) [length h] Hu Hf Hn i v H).
    + apply (fresh_independent h (h ++ [sel]) [length h] Hu Hf Hn i v H).
Qed.

Lemma synthesis_shares_no_storage_witness :
  let self := mkAnalyzer 1 (2 * PI) in
  let h := [[1]; [2]; [0]] in
  (exists ps h' recs,
     synthesize_progressive_mem self 1 0%nat 1%nat 2%nat h = Ok (ps, h') /\
     synthesize_progressive self 1 (load h 0%nat) (load h 1%nat) (load h 2%nat) = Ok recs /\
     map (load h') ps = recs /\
     unchanged h h' /\ fresh h h' ps /\ NoDup ps /\ independent h h' ps) /\
  (exists p h' sel,
     synthesize_selective_mem self 1 0%nat 1%nat 2%nat [true] h = Ok (p, h') /\
     synthesize_selective self 1 (load h 0%nat) (load h 1%nat) (load h 2%nat) [true] = Ok sel /\
     load h' p = sel /\
     unchanged h h' /\ fresh h h' [p] /\ independent h h' [p]).
Proof.
  apply (synthesis_shares_no_storage (mkAnalyzer 1 (2 * PI)) 1
           [[1]; [2]; [0]] 0%nat 1%nat 2%nat [true]); simpl; lia.
Defined.

(** ** Harmonic analysis *)

Lemma broadcast2_same (op : R -> R -> R) (x y : list R) :
  length x = length y -> broadcast2 op x y = Ok (zip_with op x y).
Proof.
  intros H. unfold broadcast2.
  now rewrite (proj2 (Nat.eqb_eq _ _) H).
Qed.

(** C10.  On coefficient arrays of equal length [get_harmonic_analysis]
    returns a result: [power] has one entry per harmonic;
    [fundamental_power] is [power[0]] when there is a harmonic; and with no
    harmonic [fundamental_power] and [thd] are 0 and [dominant_harmonics]
    is empty. *)
Theorem get_harmonic_analysis_total (an bn : list R) :
  length an = length bn ->
  exists ha,
    get_harmonic_analysis an bn = Ok ha /\
    length (power ha) = length an /\
    ((1 <= length an)%nat -> fundamental_power ha = nth 0 (power ha) 0) /\
    (length an = 0%nat ->
       fundamental_power ha = 0 /\ thd ha = 0 /\ dominant_harmonics ha = []).
Proof.
  intros Hlen. unfold get_harmonic_analysis.
  rewrite broadcast2_same by (unfold np_square; now rewrite !length_map).
  rewrite broadcast2_same by (symmetry; exact Hlen).
  cbn [bind]. eexists. split; [reflexivity|].
  cbn [power fundamental_power thd dominant_harmonics].
  assert (Hp : length (np_square (map sqrt
                 (zip_with Rplus (np_square an) (np_square bn)))) = length an).
  { unfold np_square. rewrite !length_map, zip_with_length, !length_map. lia. }
  split; [exact Hp|]. rewrite Hp. split.
  - intros H1. now rewrite (proj2 (Nat.ltb_lt _ _) H1).
  - intros H0. rewrite H0. cbn [Nat.ltb Nat.leb].
    destruct an; [|discriminate]. destruct bn; [|discriminate].
    repeat split.
Qed.

Lemma get_harmonic_analysis_total_witness :
  exists ha,
    get_harmonic_analysis [3; 0] [4; 1] = Ok ha /\
    length (power ha) = 2%nat /\
    ((1 <= 2)%nat -> fundamental_power ha = nth 0 (power ha) 0) /\
    (2%nat = 0%nat ->
       fundamental_power ha = 0 /\ thd ha = 0 /\ dominant_harmonics ha = []).
Proof.
  apply (get_harmonic_analysis_total [3; 0] [4; 1]). reflexivity.
Defined.

(** ** Export *)

Lemma analysis_dict_not_plain (ha : harmonic_analysis) :
  plain (analysis_dict ha) = false.
Proof. reflexivity. Qed.

(** C8.  Whatever the inputs, the record [export_data] returns still
    holds numpy arrays: the [analysis] entry is the dictionary of
    [get_harmonic_analysis] as it is, whose [magnitude], [phase], [power],
    [power_percentage] and [dominant_harmonics] are arrays, although every
    other array of the record went through [tolist]. *)
Theorem export_data_keeps_arrays
    (t original reconstructed : list R) (a0 : R) (an bn : list R) (d : pyval) :
  export_data t original reconstructed a0 an bn = Ok d ->
  plain d = false /\
  exists items ha,
    d = PyDict items /\
    get_harmonic_analysis an bn = Ok ha /\
    dict_get items "analysis"%string = Some (analysis_dict ha) /\
    dict_get items "time"%string = Some (PyList t) /\
    dict_get items "original_signal"%string = Some (PyList original) /\
    dict_get items "reconstructed_signal"%string = Some (PyList reconstructed) /\
    dict_get items "coefficients"%string
      = Some (PyDict [("a0"%string, PyFloat a0); ("an"%string, PyList an);
                      ("bn"%string, PyList bn)]).
Proof.
  unfold export_data. intros H.
  destruct (get_harmonic_analysis an bn) as [ha|e]; [|discriminate].
  cbn [bind] in H.
  destruct (compute_metrics original reconstructed) as [m|e]; [|discriminate].
  cbn [bind] in H. injection H as <-.
  split; [reflexivity|].
  eexists; exists ha. repeat split.
Qed.

Lemma export_data_keeps_arrays_witness :
  exists d, export_data [0] [1] [1] 2 [] [] = Ok d /\ plain d = false.
Proof.
  eexists. split; [reflexivity|].
  exact (proj1 (export_data_keeps_arrays [0] [1] [1] 2 [] [] _ eq_refl)).
Defined.

(** ** Metrics *)

Lemma zip_with_minus_self (x : list R) :
  zip_with Rminus x x = repeat 0 (length x).
Proof.
  induction x as [|a x IH]; simpl; [reflexivity|].
  rewrite IH. f_equal. lra.
Qed.

Lemma np_sum_repeat_0 (n : nat) : np_sum (repeat 0 n) = 0.
Proof. induction n as [|n IH]; simpl; [reflexivity|]. rewrite IH. lra. Qed.

Lemma np_square_repeat_0 (n : nat) : np_square (repeat 0 n) = repeat 0 n.
Proof.
  unfold np_square. rewrite map_repeat. f_equal. simpl. lra.
Qed.

Lemma np_abs_repeat_0 (n : nat) : np_abs (repeat 0 n) = repeat 0 n.
Proof. unfold np_abs. rewrite map_repeat. f_equal. apply Rabs_R0. Qed.

Lemma fold_Rmax_repeat_0 (n : nat) : fold_left Rmax (repeat 0 n) 0 = 0.
Proof.
  induction n as [|n IH]; simpl; [reflexivity|].
  now rewrite Rmax_left by lra.
Qed.

Lemma eps_pos : 0 < eps.
Proof. unfold eps. apply Rdiv_lt_0_compat; [lra | apply pow_lt; lra]. Qed.

Lemma np_std_nonneg (x : list R) : 0 <= np_std x.
Proof. unfold np_std. apply sqrt_pos. Qed.

Lemma np_sum_nonneg (l : list R) :
  (forall v, In v l -> 0 <= v) -> 0 <= np_sum l.
Proof.
  induction l as [|a l IH]; intros H; simpl; [lra|].
  assert (0 <= a) by (apply H; now left).
  assert (0 <= np_sum l) by (apply IH; intros; apply H; now right).
  lra.
Qed.

Lemma np_sum_zero_inv (l : list R) :
  (forall v, In v l -> 0 <= v) -> np_sum l = 0 -> forall v, In v l -> v = 0.
Proof.
  induction l as [|a l IH]; intros Hpos Hsum v Hin; [destruct Hin|].
  simpl in Hsum.
  assert (Ha : 0 <= a) by (apply Hpos; now left).
  assert (Hl : 0 <= np_sum l) by (apply np_sum_nonneg; intros; apply Hpos; now right).
  destruct Hin as [<- | Hin]; [lra|].
  apply IH; auto; [intros; apply Hpos; now right | lra].
Qed.

(** The standard deviation vanishes exactly on constant arrays. *)
Lemma np_std_zero_iff (x : list R) :
  x <> [] ->
  (np_std x = 0 <-> forall v, In v x -> v = np_mean x).
Proof.
  intros Hx. unfold np_std.
  remember (np_mean x) as m eqn:Em. clear Em.
  set (dev := map (fun v => (v - m) * (v - m)) x).
  assert (Hn : 0 < INR (length dev)).
  { subst dev. rewrite length_map. apply lt_0_INR.
    destruct x; [congruence | simpl; lia]. }
  assert (Hpos : forall v, In v dev -> 0 <= v).
  { subst dev. intros v Hv. apply in_map_iff in Hv.
    destruct Hv as [u [<- _]]. apply (Rle_0_sqr (u - m)). }
  assert (Hs : 0 <= np_sum dev) by now apply np_sum_nonneg.
  split.
  - intros H v Hv.
    apply sqrt_eq_0 in H;
      [| unfold np_mean; apply Rmult_le_pos;
         [exact Hs | left; now apply Rinv_0_lt_compat]].
    unfold np_mean in H.
    assert (H0 : np_sum dev = 0).
    { apply (Rmult_eq_reg_r (/ INR (length dev))); [| apply Rinv_neq_0_compat; lra].
      unfold Rdiv in H. lra. }
    assert (Hd : (v - m) * (v - m) = 0).
    { apply (np_sum_zero_inv dev Hpos H0). subst dev.
      apply in_map_iff. now exists v. }
    apply Rmult_integral in Hd. lra.
  - intros H.
    assert (Hz : dev = repeat 0 (length x)).
    { subst dev. clear Hn Hpos Hs Hx. revert H.
      induction x as [|a x IH]; intros H; simpl; [reflexivity|].
      rewrite (H a) by now left.
      rewrite IH by (intros; apply H; now right).
      f_equal. lra. }
    rewrite Hz. unfold np_mean. rewrite np_sum_repeat_0.
    unfold Rdiv. rewrite Rmult_0_l. apply sqrt_0.
Qed.

(** [compute_metrics] of a signal against itself. *)
Lemma compute_metrics_self (x : list R) :
  x <> [] ->
  compute_metrics x x
  = Ok {| rms_error := 0;
          max_error := 0;
          snr_db := float_mul 20 (np_log10 (np_std x / eps));
          relative_error := 0 |}.
Proof.
  intros Hx. unfold compute_metrics.
  rewrite broadcast2_same by reflexivity. cbn [bind].
  rewrite zip_with_minus_self, np_square_repeat_0, np_abs_repeat_0.
  assert (Hr : sqrt (np_mean (repeat 0 (length x))) = 0).
  { unfold np_mean. rewrite np_sum_repeat_0. unfold Rdiv.
    rewrite Rmult_0_l. apply sqrt_0. }
  rewrite Hr.
  destruct x as [|a x]; [congruence|].
  cbn [length repeat np_max bind]. rewrite fold_Rmax_repeat_0.
  rewrite Rplus_0_l. unfold Rdiv at 2. rewrite Rmult_0_l. reflexivity.
Qed.

Lemma snr_of_zero_std (s : R) :
  s = 0 -> float_mul 20 (np_log10 (s / eps)) = NegInf.
Proof.
  intros ->. unfold np_log10, Rdiv. rewrite Rmult_0_l.
  destruct (Rlt_dec 0 0); [lra|].
  destruct (Req_dec_T 0 0); [|lra].
  unfold float_mul. destruct (Rlt_dec 0 20); [reflexivity | lra].
Qed.

Lemma compute_metrics_with_np_std (x y : list R) :
  compute_metrics_with np_std x y = compute_metrics x y.
Proof. reflexivity. Qed.

(** [compute_metrics_with] of a signal against itself. *)
Lemma compute_metrics_with_self (std : list R -> R) (x : list R) :
  x <> [] ->
  compute_metrics_with std x x
  = Ok {| rms_error := 0;
          max_error := 0;
          snr_db := float_mul 20 (np_log10 (std x / eps));
          relative_error := 0 |}.
Proof.
  intros Hx. unfold compute_metrics_with.
  rewrite broadcast2_same by reflexivity. cbn [bind].
  rewrite zip_with_minus_self, np_square_repeat_0, np_abs_repeat_0.
  assert (Hr : sqrt (np_mean (repeat 0 (length x))) = 0).
  { unfold np_mean. rewrite np_sum_repeat_0. unfold Rdiv.
    rewrite Rmult_0_l. apply sqrt_0. }
  rewrite Hr.
  destruct x as [|a x]; [congruence|].
  cbn [length repeat np_max bind]. rewrite fold_Rmax_repeat_0.
  rewrite Rplus_0_l. unfold Rdiv at 2. rewrite Rmult_0_l. reflexivity.
Qed.

(** C6, as amended.  Let [std x >= 0] be the value [np.std] returns for a
    non-empty [x].  Then [compute_metrics(x, x)] has [rms_error],
    [max_error] and [relative_error] equal to 0 and [snr_db] equal to
    [20 * log10(std x / eps)] as numpy computes it: a finite number when
    [std x] is not 0, and [-inf] when [std x] is 0.  Nothing is said on which
    arrays [np.std] returns 0. *)
Theorem compute_metrics_exact (std : list R -> R) (x : list R) :
  0 <= std x -> x <> [] ->
  exists m,
    compute_metrics_with std x x = Ok m /\
    rms_error m = 0 /\ max_error m = 0 /\ relative_error m = 0 /\
    snr_db m = float_mul 20 (np_log10 (std x / eps)) /\
    (std x <> 0 -> snr_db m = Finite (20 * (ln (std x / eps) / ln 10))) /\
    (std x = 0 -> snr_db m = NegInf).
Proof.
  intros Hstd Hx. eexists. split; [now apply compute_metrics_with_self|].
  cbn [rms_error max_error relative_error snr_db].
  repeat split.
  - intros Hs. unfold np_log10.
    assert (Hpos : 0 < std x / eps)
      by (apply Rdiv_lt_0_compat; [lra | apply eps_pos]).
    destruct (Rlt_dec 0 (std x / eps)); [reflexivity | contradiction].
  - intros Hz. now apply snr_of_zero_std.
Qed.

Lemma compute_metrics_exact_witness :
  exists m,
    compute_metrics_with np_std [1; 2] [1; 2] = Ok m /\
    rms_error m = 0 /\ max_error m = 0 /\ relative_error m = 0 /\
    snr_db m = float_mul 20 (np_log10 (np_std [1; 2] / eps)) /\
    (np_std [1; 2] <> 0 ->
       snr_db m = Finite (20 * (ln (np_std [1; 2] / eps) / ln 10))) /\
    (np_std [1; 2] = 0 -> snr_db m = NegInf).
Proof.
  apply (compute_metrics_exact np_std [1; 2]);
    [apply np_std_nonneg | discriminate].
Defined.

(** On an array of equal entries for which [np.std] returns a small
    positive number instead of 0, as rounding of the mean can make it,
    [snr_db] is finite. *)
Example compute_metrics_rounded_std (s : R) :
  0 < s ->
  compute_metrics_with (fun _ => s) [1 / 10; 1 / 10; 1 / 10] [1 / 10; 1 / 10; 1 / 10]
  = Ok {| rms_error := 0;
          max_error := 0;
          snr_db := Finite (20 * (ln (s / eps) / ln 10));
          relative_error := 0 |}.
Proof.
  intros Hs. rewrite compute_metrics_with_self by discriminate.
  unfold np_log10.
  assert (Hpos : 0 < s / eps) by (apply Rdiv_lt_0_compat; [lra | apply eps_pos]).
  destruct (Rlt_dec 0 (s / eps)); [reflexivity | contradiction].
Qed.

(** C6 as stated fails on the one-entry signal [[1]], whose standard
    deviation is 0: [snr_db] is [-inf], not a finite number. *)
Lemma compute_metrics_constant_snr :
  exists m,
    compute_metrics [1] [1] = Ok m /\
    snr_db m = NegInf /\
    forall r, snr_db m <> Finite r.
Proof.
  eexists. split; [apply compute_metrics_self; discriminate|].
  cbn [snr_db].
  assert (Hs : float_mul 20 (np_log10 (np_std [1] / eps)) = NegInf).
  { apply snr_of_zero_std. apply np_std_zero_iff; [discriminate|].
    intros v [<- | []]. unfold np_mean. simpl. lra. }
  split; [exact Hs|]. intros r. rewrite Hs. discriminate.
Qed.

(** ** Coefficient extraction *)

Lemma length_removelast' {A : Type} (l : list A) :
  length (removelast l) = (length l - 1)%nat.
Proof.
  induction l as [|a [|b l] IH]; try reflexivity.
  change (S (length (removelast (b :: l))) = length (b :: l)).
  rewrite IH. simpl. lia.
Qed.

Lemma np_diff_length (x : list R) : length (np_diff x) = (length x - 1)%nat.
Proof.
  unfold np_diff. rewrite zip_with_length, length_tl, length_removelast'. lia.
Qed.

Lemma trapz_same (y x : list R) :
  length y = length x -> trapz y x = Ok (trapz_sum y x).
Proof.
  intros H. unfold trapz.
  rewrite broadcast2_same; [reflexivity|].
  rewrite np_diff_length, zip_with_length, length_tl, length_removelast'. lia.
Qed.

(** With at most one sample point there is no interval to integrate over. *)
Lemma trapz_sum_short (y x : list R) :
  (length x <= 1)%nat -> trapz_sum y x = 0.
Proof.
  intros H. unfold trapz_sum.
  assert (E : np_diff x = []).
  { apply length_zero_iff_nil. rewrite np_diff_length. lia. }
  now rewrite E.
Qed.

Lemma setitem_middle (l1 l2 : list R) (x v : R) :
  setitem (l1 ++ x :: l2) (length l1) v = Ok (l1 ++ v :: l2).
Proof.
  induction l1 as [|a l1 IH]; simpl; [reflexivity|]. now rewrite IH.
Qed.

Lemma py_div_ok (x y : R) : y <> 0 -> py_div x y = Ok (x / y).
Proof. intros H. unfold py_div. destruct (Req_dec_T y 0); [contradiction | reflexivity]. Qed.

Lemma py_div_zero (x : R) : py_div x 0 = Raise ZeroDivisionError.
Proof. unfold py_div. destruct (Req_dec_T 0 0); [reflexivity | lra]. Qed.

Section Coefficients.

Variable self : analyzer.
Variables y t : list R.
Hypothesis period_nonzero : period self <> 0.
Hypothesis same_length : length y = length t.

Local Abbreviation A :=
  (fun n : nat => 2 / period self * trapz_sum (cos_samples self y t n) t).
Local Abbreviation B :=
  (fun n : nat => 2 / period self * trapz_sum (sin_samples self y t n) t).

Lemma cos_samples_length (n : nat) : length (cos_samples self y t n) = length t.
Proof.
  unfold cos_samples, np_cos, scale.
  rewrite zip_with_length, !length_map. lia.
Qed.

Lemma sin_samples_length (n : nat) : length (sin_samples self y t n) = length t.
Proof.
  unfold sin_samples, np_sin, scale.
  rewrite zip_with_length, !length_map. lia.
Qed.

(** The loop of [compute_coefficients] after [k] rounds: the first [k]
    entries of [an] and [bn] are filled in. *)
Lemma coefficient_loop (N k : nat) :
  (k <= N)%nat ->
  for_each (coefficient_step self y t) (seq 1 k) (repeat 0 N, repeat 0 N)
  = Ok (map A (seq 1 k) ++ repeat 0 (N - k),
        map B (seq 1 k) ++ repeat 0 (N - k)).
Proof.
  induction k as [|k IH]; intros Hk.
  - rewrite Nat.sub_0_r. reflexivity.
  - rewrite seq_S, for_each_app, IH by lia.
    cbn [bind for_each coefficient_step Nat.add].
    rewrite py_div_ok by assumption. cbn [bind].
    rewrite broadcast2_same
      by (unfold np_cos, scale; now rewrite !length_map).
    cbn [bind]. fold (cos_samples self y t (S k)).
    rewrite trapz_same by apply cos_samples_length. cbn [bind].
    replace (N - k)%nat with (S (N - S k)) by lia. cbn [repeat].
    replace (S k - 1)%nat with (length (map A (seq 1 k)))
      by (rewrite length_map, length_seq; lia).
    rewrite setitem_middle. cbn [bind].
    rewrite broadcast2_same
      by (unfold np_sin, scale; now rewrite !length_map).
    cbn [bind]. fold (sin_samples self y t (S k)).
    rewrite trapz_same by apply sin_samples_length. cbn [bind].
    replace (length (map A (seq 1 k))) with (length (map B (seq 1 k)))
      by now rewrite !length_map.
    rewrite setitem_middle. cbn [bind].
    rewrite !map_app, <- !app_assoc. reflexivity.
Qed.

End Coefficients.

Lemma sample_grid_length (T : R) (n : Z) :
  length (sample_grid T n) = Z.to_nat n.
Proof. unfold sample_grid. now rewrite length_map, length_seq. Qed.

(** What [compute_coefficients] returns when the period is not zero, the
    counts are not negative and [func] answers with one sample per grid
    point: [a0], [an[k]] and [bn[k]] are [2/period] times [np.trapz] of the
    samples, of the samples times [cos((k+1) omega0 t)] and of the samples
    times [sin((k+1) omega0 t)], over the grid points. *)
Lemma compute_coefficients_closed
    (self : analyzer) (func : list R -> result (list R)) (N n : Z) (y : list R) :
  period self <> 0 -> (0 <= N)%Z -> (0 <= n)%Z ->
  func (sample_grid (period self) n) = Ok y ->
  length y = length (sample_grid (period self) n) ->
  compute_coefficients self func N n
  = Ok (2 / period self * trapz_sum y (sample_grid (period self) n),
        map (fun k => 2 / period self
                      * trapz_sum (cos_samples self y (sample_grid (period self) n) k)
                          (sample_grid (period self) n))
          (seq 1 (Z.to_nat N)),
        map (fun k => 2 / period self
                      * trapz_sum (sin_samples self y (sample_grid (period self) n) k)
                          (sample_grid (period self) n))
          (seq 1 (Z.to_nat N))).
Proof.
  intros HT HN Hn Hf Hlen.
  unfold compute_coefficients, linspace.
  rewrite (proj2 (Z.ltb_ge n 0) Hn). cbn [bind].
  fold (sample_grid (period self) n). rewrite Hf. cbn [bind].
  rewrite py_div_ok by assumption. cbn [bind].
  rewrite trapz_same by assumption. cbn [bind].
  unfold np_zeros. rewrite (proj2 (Z.ltb_ge N 0) HN). cbn [bind].
  rewrite (coefficient_loop self y _ HT Hlen (Z.to_nat N) (Z.to_nat N))
    by apply Nat.le_refl.
  cbn [bind]. rewrite Nat.sub_diag. cbn [repeat]. now rewrite !app_nil_r.
Qed.

(** With fewer than two sample points every coefficient is 0. *)
Lemma compute_coefficients_few_points
    (self : analyzer) (func : list R -> result (list R)) (N n : Z) (y : list R) :
  period self <> 0 -> (0 <= N)%Z -> (0 <= n < 2)%Z ->
  func (sample_grid (period self) n) = Ok y ->
  length y = length (sample_grid (period self) n) ->
  compute_coefficients self func N n
  = Ok (0, repeat 0 (Z.to_nat N), repeat 0 (Z.to_nat N)).
Proof.
  intros HT HN Hn Hf Hlen.
  rewrite (compute_coefficients_closed self func N n y) by (auto; lia).
  assert (Hs : (length (sample_grid (period self) n) <= 1)%nat)
    by (rewrite sample_grid_length; lia).
  rewrite trapz_sum_short by exact Hs.
  rewrite Rmult_0_r. f_equal. f_equal.
  - f_equal.
    rewrite (map_ext _ (fun _ => 0))
      by (intros k; rewrite trapz_sum_short by exact Hs; apply Rmult_0_r).
    rewrite map_const. now rewrite length_seq.
  - rewrite (map_ext _ (fun _ => 0))
      by (intros k; rewrite trapz_sum_short by exact Hs; apply Rmult_0_r).
    rewrite map_const. now rewrite length_seq.
Qed.

Lemma trapz_cases (y x : list R) :
  (exists v, trapz y x = Ok v) \/ trapz y x = Raise ValueError.
Proof.
  unfold trapz, broadcast2.
  destruct (Nat.eqb _ _); [left; eexists; reflexivity|].
  destruct (np_diff x) as [|a [|b l]];
    destruct (zip_with Rplus (tl y) (removelast y)) as [|c [|d l']]; cbn [bind];
    first [left; eexists; reflexivity | right; reflexivity].
Qed.

Lemma compute_coefficients_negative_harmonics
    (self : analyzer) (func : list R -> result (list R)) (N n : Z) (y : list R) :
  period self <> 0 -> (N < 0)%Z -> (0 <= n)%Z ->
  func (sample_grid (period self) n) = Ok y ->
  compute_coefficients self func N n = Raise ValueError.
Proof.
  intros HT HN Hn Hf.
  unfold compute_coefficients, linspace.
  rewrite (proj2 (Z.ltb_ge n 0) Hn). cbn [bind].
  fold (sample_grid (period self) n). rewrite Hf. cbn [bind].
  rewrite py_div_ok by assumption. cbn [bind].
  destruct (trapz_cases y (sample_grid (period self) n)) as [[v ->] | ->];
    [|reflexivity].
  cbn [bind]. unfold np_zeros. now rewrite (proj2 (Z.ltb_lt N 0) HN).
Qed.

Lemma broadcast2_mismatch (op : R -> R -> R) (x y : list R) :
  length x <> length y -> length x <> 1%nat -> length y <> 1%nat ->
  broadcast2 op x y = Raise ValueError.
Proof.
  intros Hxy Hx Hy. unfold broadcast2.
  rewrite (proj2 (Nat.eqb_neq _ _) Hxy).
  destruct x as [|a [|a' x]]; destruct y as [|b [|b' y]];
    simpl in *; congruence.
Qed.

Lemma broadcast2_scalar_l (op : R -> R -> R) (a : R) (y : list R) :
  (2 <= length y)%nat -> broadcast2 op [a] y = Ok (map (op a) y).
Proof.
  intros Hy. unfold broadcast2.
  rewrite (proj2 (Nat.eqb_neq (length [a]) (length y))) by (simpl; lia).
  reflexivity.
Qed.

Lemma broadcast2_scalar_r (op : R -> R -> R) (x : list R) (b : R) :
  (2 <= length x)%nat -> broadcast2 op x [b] = Ok (map (fun a => op a b) x).
Proof.
  intros Hx. unfold broadcast2.
  rewrite (proj2 (Nat.eqb_neq (length x) (length [b]))) by (simpl; lia).
  destruct x as [|a [|a' x]]; simpl in *; try lia. reflexivity.
Qed.

Lemma compute_metrics_returns (d : list R) (original : list R) :
  d <> [] ->
  exists m,
    (mx <- np_max (np_abs d) ;;
     Ok {| rms_error := sqrt (np_mean (np_square d));
           max_error := mx;
           snr_db := float_mul 20
                       (np_log10 (np_std original
                                  / (sqrt (np_mean (np_square d)) + eps)));
           relative_error := sqrt (np_mean (np_square d))
                             / (np_std original + eps) |}) = Ok m.
Proof.
  intros Hd. destruct d as [|a d]; [congruence|].
  cbn [np_abs map np_max bind]. eexists. reflexivity.
Qed.

Lemma compute_metrics_broadcast_l (a : R) (y : list R) :
  (2 <= length y)%nat -> exists m, compute_metrics [a] y = Ok m.
Proof.
  intros Hy. unfold compute_metrics.
  rewrite broadcast2_scalar_l by assumption. cbn [bind].
  apply compute_metrics_returns.
  destruct y; simpl in *; [lia | discriminate].
Qed.

Lemma compute_metrics_broadcast_r (x : list R) (b : R) :
  (2 <= length x)%nat -> exists m, compute_metrics x [b] = Ok m.
Proof.
  intros Hx. unfold compute_metrics.
  rewrite broadcast2_scalar_r by assumption. cbn [bind].
  apply compute_metrics_returns.
  destruct x; simpl in *; [lia | discriminate].
Qed.

(** C5, as amended.  The engine validates no parameter and has no error
    of its own; what a caller gets is what Python and numpy raise on the
    way.  A zero period raises [ZeroDivisionError] in the constructor and
    any other period, negative ones included, is accepted.  A negative
    sample count raises [ValueError] in [np.linspace]; a negative harmonic
    count raises [ValueError] in [np.zeros], after the samples were taken;
    a sample count of 0 or 1 is accepted and gives all-zero coefficients.
    Arrays of different lengths raise [ValueError] in the metrics functions
    when neither length is 1, and are broadcast when one of them is. *)
Theorem parameters_are_not_validated :
  init 0 = Raise ZeroDivisionError /\
  (forall p, p <> 0 -> init p = Ok (mkAnalyzer p (2 * PI / p))) /\
  (forall self func N n,
     (n < 0)%Z -> compute_coefficients self func N n = Raise ValueError) /\
  (forall self func N n y,
     period self <> 0 -> (N < 0)%Z -> (0 <= n)%Z ->
     func (sample_grid (period self) n) = Ok y ->
     compute_coefficients self func N n = Raise ValueError) /\
  (forall self func N n y,
     period self <> 0 -> (0 <= N)%Z -> (0 <= n < 2)%Z ->
     func (sample_grid (period self) n) = Ok y ->
     length y = length (sample_grid (period self) n) ->
     compute_coefficients self func N n
     = Ok (0, repeat 0 (Z.to_nat N), repeat 0 (Z.to_nat N))) /\
  (forall x y,
     length x <> length y -> length x <> 1%nat -> length y <> 1%nat ->
     compute_metrics x y = Raise ValueError /\
     get_harmonic_analysis x y = Raise ValueError) /\
  (forall a y, (2 <= length y)%nat -> exists m, compute_metrics [a] y = Ok m) /\
  (forall x b, (2 <= length x)%nat -> exists m, compute_metrics x [b] = Ok m).
Proof.
  split; [unfold init; now rewrite py_div_zero|].
  split; [intros p Hp; unfold init; now rewrite py_div_ok|].
  split.
  { intros self func N n Hn. unfold compute_coefficients, linspace.
    now rewrite (proj2 (Z.ltb_lt n 0) Hn). }
  split; [intros; eapply compute_coefficients_negative_harmonics; eauto|].
  split; [intros; eapply compute_coefficients_few_points; eauto|].
  split.
  { intros x y Hxy Hx Hy. split.
    - unfold compute_metrics. now rewrite broadcast2_mismatch.
    - unfold get_harmonic_analysis.
      rewrite broadcast2_mismatch; [reflexivity | | |];
        unfold np_square; now rewrite !length_map. }
  split; [apply compute_metrics_broadcast_l | apply compute_metrics_broadcast_r].
Qed.

(** C5 as stated fails: a negative period, a sample count of 1 and arrays
    of lengths 3 and 1 are all accepted without any error. *)
Lemma invalid_parameters_accepted :
  init (-1) = Ok (mkAnalyzer (-1) (2 * PI / -1)) /\
  compute_coefficients (mkAnalyzer 1 (2 * PI / 1))
    (fun t => Ok (map (fun _ => 1) t)) 3 1 = Ok (0, [0; 0; 0], [0; 0; 0]) /\
  exists m, compute_metrics [1; 2; 3] [1] = Ok m.
Proof.
  split; [unfold init; rewrite py_div_ok by lra; reflexivity|].
  split.
  - rewrite (compute_coefficients_few_points _ _ 3 1
               (map (fun _ => 1) (sample_grid 1 1)));
      cbn [period]; try reflexivity; try lra; try lia.
  - apply compute_metrics_broadcast_r. simpl. lia.
Qed.

(** The four sample points of one period of length 2, and the cosine and
    sine of the fundamental on them. *)
Lemma sample_grid_2_4 : sample_grid 2 4 = [0; 1 / 2; 1; 3 / 2].
Proof.
  unfold sample_grid. change (Z.to_nat 4) with 4%nat. cbn [seq map INR].
  repeat (apply f_equal2; [lra|]). reflexivity.
Qed.

Lemma fundamental_cos_quarters :
  np_cos (scale (INR 1 * (2 * PI / 2)) [0; 1 / 2; 1; 3 / 2; 2]) = [1; 0; -1; 0; 1].
Proof.
  unfold np_cos, scale. cbn [map INR].
  replace (1 * (2 * PI / 2) * 0) with 0 by lra.
  replace (1 * (2 * PI / 2) * (1 / 2)) with (PI / 2) by lra.
  replace (1 * (2 * PI / 2) * 1) with PI by lra.
  replace (1 * (2 * PI / 2) * (3 / 2)) with (3 * (PI / 2)) by lra.
  replace (1 * (2 * PI / 2) * 2) with (2 * PI) by lra.
  now rewrite cos_0, cos_PI2, cos_PI, cos_3PI2, cos_2PI.
Qed.

Lemma fundamental_sin_quarters :
  np_sin (scale (INR 1 * (2 * PI / 2)) [0; 1 / 2; 1; 3 / 2; 2]) = [0; 1; 0; -1; 0].
Proof.
  unfold np_sin, scale. cbn [map INR].
  replace (1 * (2 * PI / 2) * 0) with 0 by lra.
  replace (1 * (2 * PI / 2) * (1 / 2)) with (PI / 2) by lra.
  replace (1 * (2 * PI / 2) * 1) with PI by lra.
  replace (1 * (2 * PI / 2) * (3 / 2)) with (3 * (PI / 2)) by lra.
  replace (1 * (2 * PI / 2) * 2) with (2 * PI) by lra.
  now rewrite sin_0, sin_PI2, sin_PI, sin_3PI2, sin_2PI.
Qed.

Lemma trapz_sum_4 (y0 y1 y2 y3 : R) :
  trapz_sum [y0; y1; y2; y3] [0; 1 / 2; 1; 3 / 2]
  = (y0 + 2 * y1 + 2 * y2 + y3) / 4.
Proof. unfold trapz_sum, np_diff. simpl. lra. Qed.

Lemma trapz_sum_5 (y0 y1 y2 y3 y4 : R) :
  trapz_sum [y0; y1; y2; y3; y4] [0; 1 / 2; 1; 3 / 2; 2]
  = (y0 + 2 * y1 + 2 * y2 + 2 * y3 + y4) / 4.
Proof. unfold trapz_sum, np_diff. simpl. lra. Qed.

(** The integral over the whole period exceeds what [np.trapz] returns on
    the open grid by the trapezoid of the last interval, from the last
    sample point to the end of the period. *)
Lemma trapz_sum_cons (a a' b b' : R) (y t : list R) :
  trapz_sum (a :: a' :: y) (b :: b' :: t)
  = (b' - b) * (a' + a) / 2 + trapz_sum (a' :: y) (b' :: t).
Proof. reflexivity. Qed.

Lemma trapz_sum_snoc (y t : list R) (y' t' : R) :
  length y = length t -> y <> [] ->
  trapz_sum (y ++ [y']) (t ++ [t'])
  = trapz_sum y t + (t' - last t 0) * (y' + last y 0) / 2.
Proof.
  revert t; induction y as [|a y IH]; intros [|b t] Hlen Hy;
    try discriminate; [congruence|].
  destruct y as [|a' y]; destruct t as [|b' t]; try discriminate.
  - unfold trapz_sum, np_diff. simpl. lra.
  - change ((a :: a' :: y) ++ [y']) with (a :: a' :: (y ++ [y'])).
    change ((b :: b' :: t) ++ [t']) with (b :: b' :: (t ++ [t'])).
    rewrite !trapz_sum_cons.
    change (a' :: y ++ [y']) with ((a' :: y) ++ [y']).
    change (b' :: t ++ [t']) with ((b' :: t) ++ [t']).
    rewrite IH by (simpl in *; congruence).
    change (last (b :: b' :: t) 0) with (last (b' :: t) 0).
    change (last (a :: a' :: y) 0) with (last (a' :: y) 0).
    lra.
Qed.

Lemma full_period_integral_wedge (T : R) (y t : list R) :
  length y = length t -> y <> [] ->
  spec_full_period_integral T y t
  = Ok (trapz_sum y t + (T - last t 0) * (hd 0 y + last y 0) / 2).
Proof.
  intros Hlen Hy. unfold spec_full_period_integral.
  rewrite trapz_same by (rewrite !length_app; simpl; lia).
  now rewrite trapz_sum_snoc.
Qed.

(** C1 at the constant function 1 with period 2, one harmonic and four
    sample points.  The four points are 0, 1/2, 1 and 3/2, so [np.trapz]
    runs over three intervals and stops at 3/2: it returns
    [a0 = 3/2], [an = [-1/4]], [bn = [1/4]].  The trapezoidal rule over the
    whole period, closed at 2 by the value at 0, gives [a0 = 2] and
    [an = bn = [0]], the Fourier coefficients of the constant 1. *)
Theorem compute_coefficients_drops_last_interval :
  let self := mkAnalyzer 2 (2 * PI / 2) in
  let one := fun t : list R => Ok (map (fun _ : R => 1) t) in
  let t := [0; 1 / 2; 1; 3 / 2] in
  let y := [1; 1; 1; 1] in
  init 2 = Ok self /\
  linspace 0 2 4 = Ok t /\
  one t = Ok y /\
  compute_coefficients self one 1 4 = Ok (3 / 2, [-1 / 4], [1 / 4]) /\
  spec_coefficient 2 y t = Ok 2 /\
  spec_coefficient 2 (cos_samples self y t 1) t = Ok 0 /\
  spec_coefficient 2 (sin_samples self y t 1) t = Ok 0.
Proof.
  cbv zeta.
  pose proof (f_equal (@removelast R) fundamental_cos_quarters) as Hc.
  pose proof (f_equal (@removelast R) fundamental_sin_quarters) as Hs.
  cbn [removelast np_cos np_sin scale map] in Hc, Hs.
  assert (Hcs : cos_samples (mkAnalyzer 2 (2 * PI / 2)) [1; 1; 1; 1]
                  [0; 1 / 2; 1; 3 / 2] 1
                = [1 * 1; 1 * 0; 1 * -1; 1 * 0]).
  { unfold cos_samples, np_cos, scale. cbn [omega0 map]. now rewrite Hc. }
  assert (Hss : sin_samples (mkAnalyzer 2 (2 * PI / 2)) [1; 1; 1; 1]
                  [0; 1 / 2; 1; 3 / 2] 1
                = [1 * 0; 1 * 1; 1 * 0; 1 * -1]).
  { unfold sin_samples, np_sin, scale. cbn [omega0 map]. now rewrite Hs. }
  split; [unfold init; rewrite py_div_ok by lra; reflexivity|].
  split.
  { change (linspace 0 2 4) with (Ok (sample_grid 2 4)).
    now rewrite sample_grid_2_4. }
  split; [reflexivity|].
  split.
  { rewrite (compute_coefficients_closed _ _ 1 4 [1; 1; 1; 1]); cbn [period].
    - rewrite sample_grid_2_4. change (Z.to_nat 1) with 1%nat. cbn [seq map].
      rewrite Hcs, Hss, !trapz_sum_4.
      f_equal. f_equal; [f_equal|]; [lra | f_equal; lra | f_equal; lra].
    - lra.
    - lia.
    - lia.
    - now rewrite sample_grid_2_4.
    - now rewrite sample_grid_2_4. }
  unfold spec_coefficient, spec_full_period_integral.
  rewrite Hcs, Hss. cbn [app hd].
  rewrite !trapz_same by reflexivity. cbn [bind].
  rewrite !trapz_sum_5.
  repeat split; f_equal; lra.
Qed.

(** ** Traces on small inputs *)

(** One harmonic at [t = 0]: the DC array is [[1]] and the next one adds
    [3 * cos 0 + 5 * sin 0]. *)
Example synthesize_progressive_at_origin :
  synthesize_progressive (mkAnalyzer 1 (2 * PI)) 2 [3] [5] [0] = Ok [[1]; [4]].
Proof.
  unfold synthesize_progressive, np_ones_like, scale.
  cbn [length seq for_each progressive_step add_harmonic getitem nth_error
       bind map np_cos np_sin scale zip_with app Nat.add INR].
  unfold scale, np_cos, np_sin. cbn [map zip_with].
  rewrite Rmult_0_r, cos_0, sin_0.
  do 2 f_equal; [f_equal; lra | do 2 f_equal; lra].
Qed.

(** A sine array shorter than the cosine array is an index error as soon
    as an enabled harmonic needs the missing entry ... *)
Example synthesize_selective_short_bn :
  synthesize_selective (mkAnalyzer 1 (2 * PI)) 2 [3] [] [0] [true]
  = Raise IndexError.
Proof. reflexivity. Qed.

(** ... and arrays of lengths 3 and 2 cannot be broadcast. *)
Example compute_metrics_shape_mismatch :
  compute_metrics [1; 2; 3] [1; 2] = Raise ValueError.
Proof. reflexivity. Qed.

Example compute_metrics_empty : compute_metrics [] [] = Raise ValueError.
Proof. reflexivity. Qed.

Example argsort_example : argsort [3; 1; 2] = [1; 2; 0]%nat.
Proof.
  unfold argsort. cbn [length seq fold_right insert_index nth].
  repeat (destruct (Rle_dec _ _); try lra; cbn [insert_index nth]).
  reflexivity.
Qed.

Example get_harmonic_analysis_empty :
  get_harmonic_analysis [] []
  = Ok {| magnitude := []; phase := []; power := []; total_power := 0;
          power_percentage := []; dominant_harmonics := [];
          fundamental_power := 0; thd := 0 |}.
Proof. reflexivity. Qed.

(** * Further properties of the engine *)

(** ** Coefficient extraction *)

(** X1.  With a non-zero period, non-negative counts and a function that
    answers with one sample per grid point, [compute_coefficients] returns
    two arrays of [n_harmonics] entries; [a0] is [2/period] times
    [np.trapz] of the samples and entry [k] of [an] (of [bn]) is [2/period]
    times [np.trapz] of the samples times [cos((k+1) omega0 t)] (times
    [sin((k+1) omega0 t)]). *)
Theorem compute_coefficients_values
    (self : analyzer) (func : list R -> result (list R)) (N n : Z) (y : list R) :
  period self <> 0 -> (0 <= N)%Z -> (0 <= n)%Z ->
  func (sample_grid (period self) n) = Ok y ->
  length y = length (sample_grid (period self) n) ->
  exists a0 an bn,
    compute_coefficients self func N n = Ok (a0, an, bn) /\
    length an = Z.to_nat N /\ length bn = Z.to_nat N /\
    a0 = 2 / period self * trapz_sum y (sample_grid (period self) n) /\
    forall k, (k < Z.to_nat N)%nat ->
      nth k an 0
      = 2 / period self
        * trapz_sum (cos_samples self y (sample_grid (period self) n) (k + 1))
            (sample_grid (period self) n) /\
      nth k bn 0
      = 2 / period self
        * trapz_sum (sin_samples self y (sample_grid (period self) n) (k + 1))
            (sample_grid (period self) n).
Proof.
  intros HT HN Hn Hf Hlen.
  do 3 eexists.
  split; [now apply (compute_coefficients_closed self func N n y)|].
  rewrite !length_map, length_seq.
  repeat split.
  - rewrite (nth_map_lt _ _ k 0%nat) by now rewrite length_seq.
    rewrite seq_nth by assumption. now replace (1 + k)%nat with (k + 1)%nat by lia.
  - rewrite (nth_map_lt _ _ k 0%nat) by now rewrite length_seq.
    rewrite seq_nth by assumption. now replace (1 + k)%nat with (k + 1)%nat by lia.
Qed.

Lemma compute_coefficients_values_witness :
  exists a0 an bn,
    compute_coefficients (mkAnalyzer 2 (2 * PI / 2))
      (fun t => Ok (map (fun _ => 1) t)) 3 4 = Ok (a0, an, bn) /\
    length an = Z.to_nat 3 /\ length bn = Z.to_nat 3 /\
    a0 = 2 / 2 * trapz_sum (map (fun _ => 1) (sample_grid 2 4)) (sample_grid 2 4) /\
    forall k, (k < Z.to_nat 3)%nat ->
      nth k an 0
      = 2 / 2
        * trapz_sum (cos_samples (mkAnalyzer 2 (2 * PI / 2))
                       (map (fun _ => 1) (sample_grid 2 4)) (sample_grid 2 4) (k + 1))
            (sample_grid 2 4) /\
      nth k bn 0
      = 2 / 2
        * trapz_sum (sin_samples (mkAnalyzer 2 (2 * PI / 2))
                       (map (fun _ => 1) (sample_grid 2 4)) (sample_grid 2 4) (k + 1))
            (sample_grid 2 4).
Proof.
  apply (compute_coefficients_values (mkAnalyzer 2 (2 * PI / 2))
           (fun t => Ok (map (fun _ => 1) t)) 3 4
           (map (fun _ => 1) (sample_grid 2 4)));
    cbn [period]; try lra; try lia; try reflexivity.
Defined.

(** [np.trapz] is homogeneous in the samples. *)
Lemma trapz_sum_few (y x : list R) :
  (length y <= 1)%nat -> trapz_sum y x = 0.
Proof.
  intros H. unfold trapz_sum.
  assert (E : zip_with Rplus (tl y) (removelast y) = []).
  { apply length_zero_iff_nil.
    rewrite zip_with_length, length_tl, length_removelast'. lia. }
  rewrite E. destruct (np_diff x); reflexivity.
Qed.

Lemma trapz_sum_scale (c : R) (y x : list R) :
  trapz_sum (map (fun v => v * c) y) x = trapz_sum y x * c.
Proof.
  revert x; induction y as [|a y IH]; intros x.
  - rewrite !trapz_sum_few by (simpl; lia). lra.
  - destruct y as [|a' y].
    + rewrite !trapz_sum_few by (simpl; lia). lra.
    + destruct x as [|b [|b' x]].
      * rewrite !trapz_sum_short by (simpl; lia). lra.
      * rewrite !trapz_sum_short by (simpl; lia). lra.
      * cbn [map]. rewrite !trapz_sum_cons.
        change (a' * c :: map (fun v => v * c) y)
          with (map (fun v => v * c) (a' :: y)).
        rewrite IH. lra.
Qed.

Lemma zip_with_scale_l (c : R) (y z : list R) :
  zip_with Rmult (map (fun v => v * c) y) z
  = map (fun v => v * c) (zip_with Rmult y z).
Proof.
  revert z; induction y as [|a y IH]; intros [|b z]; simpl; try reflexivity.
  rewrite IH. f_equal. lra.
Qed.

(** X2.  The amplitude factors out: sampling [f(t) * amplitude], as the
    window's [wrapped_function] does, multiplies [a0] and every entry of
    [an] and [bn] by [amplitude]. *)
Theorem compute_coefficients_amplitude
    (self : analyzer) (f : list R -> result (list R)) (amplitude : R)
    (N n : Z) (y : list R) :
  period self <> 0 -> (0 <= N)%Z -> (0 <= n)%Z ->
  f (sample_grid (period self) n) = Ok y ->
  length y = length (sample_grid (period self) n) ->
  exists a0 an bn,
    compute_coefficients self f N n = Ok (a0, an, bn) /\
    compute_coefficients self (wrapped_function f amplitude) N n
    = Ok (a0 * amplitude,
          map (fun v => v * amplitude) an,
          map (fun v => v * amplitude) bn).
Proof.
  intros HT HN Hn Hf Hlen.
  do 3 eexists.
  split; [now apply (compute_coefficients_closed self f N n y)|].
  rewrite (compute_coefficients_closed self (wrapped_function f amplitude) N n
             (map (fun v => v * amplitude) y));
    [| assumption | assumption | assumption
     | unfold wrapped_function; now rewrite Hf
     | now rewrite length_map].
  rewrite trapz_sum_scale, !map_map.
  f_equal. f_equal; [f_equal; [lra|] |].
  - apply map_ext. intros k. unfold cos_samples.
    rewrite zip_with_scale_l, trapz_sum_scale. lra.
  - apply map_ext. intros k. unfold sin_samples.
    rewrite zip_with_scale_l, trapz_sum_scale. lra.
Qed.

Lemma compute_coefficients_amplitude_witness :
  exists a0 an bn,
    compute_coefficients (mkAnalyzer 2 (2 * PI / 2))
      (fun t => Ok (map (fun _ => 1) t)) 3 4 = Ok (a0, an, bn) /\
    compute_coefficients (mkAnalyzer 2 (2 * PI / 2))
      (wrapped_function (fun t => Ok (map (fun _ => 1) t)) 5) 3 4
    = Ok (a0 * 5, map (fun v => v * 5) an, map (fun v => v * 5) bn).
Proof.
  apply (compute_coefficients_amplitude (mkAnalyzer 2 (2 * PI / 2))
           (fun t => Ok (map (fun _ => 1) t)) 5 3 4
           (map (fun _ => 1) (sample_grid 2 4)));
    cbn [period]; try lra; try lia; try reflexivity.
Defined.

(** On equally spaced points [np.trapz] is the spacing times the sum of
    the samples, less half of the first and of the last one. *)
Lemma trapz_sum_uniform (dt : R) (y : list R) :
  y <> [] ->
  forall s,
    trapz_sum y (map (fun i => INR i * dt + 0) (seq s (length y)))
    = dt * (np_sum y - (hd 0 y + last y 0) / 2).
Proof.
  induction y as [|a y IH]; intros Hy s; [congruence|].
  destruct y as [|a' y].
  - rewrite trapz_sum_few by (simpl; lia). simpl. lra.
  - cbn [length seq map]. rewrite trapz_sum_cons.
    change (INR (S s) * dt + 0 :: map (fun i => INR i * dt + 0) (seq (S (S s)) (length y)))
      with (map (fun i => INR i * dt + 0) (seq (S s) (length (a' :: y)))).
    rewrite IH by discriminate.
    rewrite S_INR.
    change (last (a :: a' :: y) 0) with (last (a' :: y) 0).
    cbn [np_sum fold_right hd]. lra.
Qed.

Lemma INR_to_nat (n : Z) : (0 <= n)%Z -> INR (Z.to_nat n) = IZR n.
Proof. intros H. now rewrite INR_IZR_INZ, Z2Nat.id. Qed.

(** X3.  With at least one sample point, [a0] does not depend on the
    period: it is [2/n_points] times the sum of the samples less half of
    the first and of the last sample. *)
Theorem compute_coefficients_a0_sum
    (self : analyzer) (func : list R -> result (list R)) (N n : Z) (y : list R) :
  period self <> 0 -> (0 <= N)%Z -> (1 <= n)%Z ->
  func (sample_grid (period self) n) = Ok y ->
  length y = length (sample_grid (period self) n) ->
  exists an bn,
    compute_coefficients self func N n
    = Ok (2 / IZR n * (np_sum y - (hd 0 y + last y 0) / 2), an, bn).
Proof.
  intros HT HN Hn Hf Hlen.
  rewrite (compute_coefficients_closed self func N n y) by (auto; lia).
  do 2 eexists. f_equal. f_equal. f_equal.
  assert (Hy : y <> []).
  { intros ->. rewrite sample_grid_length in Hlen. simpl in Hlen. lia. }
  unfold sample_grid. rewrite <- (sample_grid_length (period self) n), <- Hlen.
  rewrite trapz_sum_uniform by assumption.
  assert (Hn0 : IZR n <> 0) by (apply not_0_IZR; lia).
  field. split; assumption.
Qed.

Lemma compute_coefficients_a0_sum_witness :
  exists an bn,
    compute_coefficients (mkAnalyzer 2 (2 * PI / 2))
      (fun t => Ok (map (fun _ => 1) t)) 3 4
    = Ok (2 / IZR 4
          * (np_sum (map (fun _ => 1) (sample_grid 2 4))
             - (hd 0 (map (fun _ => 1) (sample_grid 2 4))
                + last (map (fun _ => 1) (sample_grid 2 4)) 0) / 2),
          an, bn).
Proof.
  apply (compute_coefficients_a0_sum (mkAnalyzer 2 (2 * PI / 2))
           (fun t => Ok (map (fun _ => 1) t)) 3 4
           (map (fun _ => 1) (sample_grid 2 4)));
    cbn [period]; try lra; try lia; try reflexivity.
Defined.

Lemma np_sum_const (c : R) (l : list R) :
  np_sum (map (fun _ => c) l) = INR (length l) * c.
Proof.
  induction l as [|x l IH]; [simpl; lra|].
  cbn [map np_sum fold_right length]. fold (np_sum (map (fun _ => c) l)).
  rewrite IH, S_INR. lra.
Qed.

Lemma last_map_const (c : R) (l : list R) :
  l <> [] -> last (map (fun _ => c) l) 0 = c.
Proof.
  induction l as [|x [|x' l] IH]; intros H; [congruence | reflexivity |].
  change (last (map (fun _ => c) (x' :: l)) 0 = c). apply IH. discriminate.
Qed.

(** X4.  For the constant function [c] and [n_points >= 1] the DC
    coefficient is [2c (1 - 1/n_points)], not [2c]: the interval after the
    last sample point is not integrated. *)
Theorem compute_coefficients_constant
    (self : analyzer) (c : R) (N n : Z) :
  period self <> 0 -> (0 <= N)%Z -> (1 <= n)%Z ->
  exists an bn,
    compute_coefficients self (fun t => Ok (map (fun _ => c) t)) N n
    = Ok (2 * c * (1 - 1 / IZR n), an, bn).
Proof.
  intros HT HN Hn.
  rewrite (compute_coefficients_closed self _ N n
             (map (fun _ => c) (sample_grid (period self) n)))
    by (auto; try lia; now rewrite length_map).
  do 2 eexists. f_equal. f_equal. f_equal.
  assert (Hg : sample_grid (period self) n <> []).
  { intros E. apply (f_equal (@length R)) in E.
    rewrite sample_grid_length in E. simpl in E. lia. }
  assert (Hn0 : IZR n <> 0) by (apply not_0_IZR; lia).
  unfold sample_grid at 2.
  rewrite <- (sample_grid_length (period self) n).
  rewrite <- (length_map (fun _ => c) (sample_grid (period self) n)).
  rewrite trapz_sum_uniform
    by (intros E; apply Hg; now apply map_eq_nil in E).
  rewrite np_sum_const, last_map_const by assumption.
  rewrite sample_grid_length, INR_to_nat by lia.
  destruct (sample_grid (period self) n) as [|g0 g]; [congruence|].
  cbn [map hd]. field. split; assumption.
Qed.

Lemma compute_coefficients_constant_witness :
  exists an bn,
    compute_coefficients (mkAnalyzer 2 (2 * PI / 2))
      (fun t => Ok (map (fun _ => 3) t)) 2 2000
    = Ok (2 * 3 * (1 - 1 / IZR 2000), an, bn).
Proof.
  apply (compute_coefficients_constant (mkAnalyzer 2 (2 * PI / 2)) 3 2 2000);
    cbn [period]; try lra; lia.
Defined.

(** X5.  For a positive period and a positive count, [np.linspace] with
    [endpoint=False] gives [n] points, the [k]-th at [k * period / n]; they
    increase strictly, start at 0 and stay below the period. *)
Theorem linspace_half_open (T : R) (n : Z) :
  0 < T -> (0 < n)%Z ->
  exists t,
    linspace 0 T n = Ok t /\
    length t = Z.to_nat n /\
    (forall k, (k < Z.to_nat n)%nat ->
       nth k t 0 = INR k * T / IZR n /\ 0 <= nth k t 0 < T) /\
    (forall j k, (j < k < Z.to_nat n)%nat -> nth j t 0 < nth k t 0).
Proof.
  intros HT Hn.
  assert (Hn0 : 0 < IZR n) by (apply IZR_lt; lia).
  exists (sample_grid T n).
  split; [unfold linspace; now rewrite (proj2 (Z.ltb_ge n 0)) by lia|].
  split; [apply sample_grid_length|].
  assert (Hk : forall k, (k < Z.to_nat n)%nat ->
            nth k (sample_grid T n) 0 = INR k * T / IZR n).
  { intros k Hlt. unfold sample_grid.
    rewrite (nth_map_lt _ _ k 0%nat) by now rewrite length_seq.
    rewrite seq_nth by assumption. cbn [Nat.add]. field. lra. }
  assert (Hdt : 0 < T / IZR n) by now apply Rdiv_lt_0_compat.
  split.
  - intros k Hlt. split; [now apply Hk|]. rewrite Hk by assumption.
    assert (H0 : 0 <= INR k) by apply pos_INR.
    assert (H1 : INR k < IZR n).
    { rewrite <- INR_to_nat by lia. now apply lt_INR. }
    replace (INR k * T / IZR n) with (INR k * (T / IZR n)) by (field; lra).
    split; [nra|].
    replace T with (IZR n * (T / IZR n)) at 2 by (field; lra). nra.
  - intros j k [Hjk Hkn]. rewrite !Hk by lia.
    assert (H1 : INR j < INR k) by now apply lt_INR.
    replace (INR j * T / IZR n) with (INR j * (T / IZR n)) by (field; lra).
    replace (INR k * T / IZR n) with (INR k * (T / IZR n)) by (field; lra).
    nra.
Qed.

Lemma linspace_half_open_witness :
  exists t,
    linspace 0 2 4 = Ok t /\
    length t = Z.to_nat 4 /\
    (forall k, (k < Z.to_nat 4)%nat ->
       nth k t 0 = INR k * 2 / IZR 4 /\ 0 <= nth k t 0 < 2) /\
    (forall j k, (j < k < Z.to_nat 4)%nat -> nth j t 0 < nth k t 0).
Proof. apply (linspace_half_open 2 4); [lra | lia]. Defined.

(** ** Synthesis *)

Lemma getitem_out_of_range (a : list R) (i : nat) :
  (length a <= i)%nat -> getitem a i = Raise IndexError.
Proof.
  intros H. unfold getitem. now rewrite (proj2 (nth_error_None a i) H).
Qed.

(** X6.  [synthesize_progressive] returns exactly when [bn] is at least
    as long as [an]; a shorter [bn] is an [IndexError], raised when the
    first missing entry is read. *)
Theorem synthesize_progressive_index_error
    (self : analyzer) (a0 : R) (an bn t : list R) :
  ((length an <= length bn)%nat ->
     exists recs, synthesize_progressive self a0 an bn t = Ok recs) /\
  ((length bn < length an)%nat ->
     synthesize_progressive self a0 an bn t = Raise IndexError).
Proof.
  split.
  - intros H. eexists. now apply synthesize_progressive_closed.
  - intros H. unfold synthesize_progressive. fold (dc_signal a0 t).
    replace (length an) with (length bn + S (length an - length bn - 1))%nat by lia.
    rewrite seq_app, for_each_app.
    rewrite progressive_loop by lia.
    cbn [bind Nat.add seq for_each progressive_step].
    unfold add_harmonic.
    rewrite getitem_nth by lia. cbn [bind].
    now rewrite getitem_out_of_range by lia.
Qed.

(** What holds of the state before a loop and is kept by every round that
    returns holds of the state the loop returns. *)
Lemma for_each_invariant {A S : Type} (P : S -> Prop)
    (body : S -> A -> result S) (xs : list A) :
  (forall s x s', P s -> body s x = Ok s' -> P s') ->
  forall s s', P s -> for_each body xs s = Ok s' -> P s'.
Proof.
  intros Hstep. induction xs as [|x xs IH]; intros s s' Hs H; simpl in H.
  - now injection H as <-.
  - destruct (body s x) as [s1|e] eqn:E; [|discriminate].
    cbn [bind] in H. eapply IH; [|exact H]. eapply Hstep; eauto.
Qed.

Lemma add_harmonic_length (self : analyzer) (an bn t signal signal' : list R)
    (n : nat) :
  length signal = length t ->
  add_harmonic self an bn t signal n = Ok signal' ->
  length signal' = length t.
Proof.
  intros Hl H. unfold add_harmonic in H.
  destruct (getitem an n); [|discriminate]. cbn [bind] in H.
  destruct (getitem bn n); [|discriminate]. cbn [bind] in H.
  injection H as <-.
  unfold scale, np_cos, np_sin.
  rewrite !zip_with_length, !length_map. lia.
Qed.

Lemma dc_signal_length (a0 : R) (t : list R) : length (dc_signal a0 t) = length t.
Proof. unfold dc_signal, scale, np_ones_like. now rewrite !length_map. Qed.

(** X7.  Whatever the coefficient arrays and the mask, every array the two
    synthesis functions return has one entry per time sample. *)
Theorem synthesis_keeps_shape
    (self : analyzer) (a0 : R) (an bn t : list R) (mask : list bool) :
  (forall recs, synthesize_progressive self a0 an bn t = Ok recs ->
     Forall (fun r => length r = length t) recs) /\
  (forall sel, synthesize_selective self a0 an bn t mask = Ok sel ->
     length sel = length t).
Proof.
  split.
  - intros recs H. unfold synthesize_progressive in H. fold (dc_signal a0 t) in H.
    destruct (for_each _ _ _) as [[sig rs]|e] eqn:E; [|discriminate].
    cbn [bind] in H. injection H as <-.
    apply (for_each_invariant
             (fun st : list R * list (list R) =>
                length (fst st) = length t /\
                Forall (fun r => length r = length t) (snd st))
             _ _) with (s' := (sig, rs)) in E.
    + exact (proj2 E).
    + intros [s1 r1] n [s2 r2] [Hs Hr] Hb. cbn [fst snd] in *.
      unfold progressive_step in Hb.
      destruct (add_harmonic self an bn t s1 n) as [s3|] eqn:Ea; [|discriminate].
      cbn [bind] in Hb. injection Hb as <- <-.
      assert (H3 := add_harmonic_length _ _ _ _ _ _ _ Hs Ea).
      split; [exact H3|]. apply Forall_app. split; [exact Hr|]. now constructor.
    + cbn [fst snd]. split; [apply dc_signal_length|].
      constructor; [apply dc_signal_length | constructor].
  - intros sel H. unfold synthesize_selective in H. fold (dc_signal a0 t) in H.
    apply (for_each_invariant (fun s : list R => length s = length t) _ _)
      with (s' := sel) in H; [exact H | | apply dc_signal_length].
    intros s [n e] s' Hs Hb. unfold selective_step in Hb.
    destruct (e && (n <? length an)%nat).
    + eapply add_harmonic_length; eauto.
    + now injection Hb as <-.
Qed.

(** X8.  Enabling the first [i] harmonics and no other gives the [i]-th
    array of the progressive sequence, for every [i <= N]. *)
Theorem selective_prefix_is_progressive
    (self : analyzer) (a0 : R) (an bn t : list R) (i k : nat) :
  length an = length bn -> (i <= length an)%nat ->
  exists recs,
    synthesize_progressive self a0 an bn t = Ok recs /\
    synthesize_selective self a0 an bn t (repeat true i ++ repeat false k)
    = Ok (nth i recs []).
Proof.
  intros Hlen Hi. eexists.
  split; [apply synthesize_progressive_closed; lia|].
  rewrite synthesize_selective_closed by lia. f_equal.
  rewrite (nth_map_lt _ _ i 0%nat) by (rewrite length_seq; lia).
  rewrite seq_nth by lia. cbn [Nat.add].
  rewrite length_app, !repeat_length.
  rewrite (fold_cond_trunc (harmonic_term self an bn t)
             (fun n => nth n (repeat true i ++ repeat false k) false
                       && (n <? length an)%nat) i (i + k)); [| lia |].
  - unfold partial_sum. apply fold_left_ext_in.
    intros s n Hn. apply in_seq in Hn.
    rewrite app_nth1 by (rewrite repeat_length; lia).
    rewrite nth_repeat_lt by lia.
    now rewrite (proj2 (Nat.ltb_lt n (length an))) by lia.
  - intros n Hn. rewrite app_nth2 by (rewrite repeat_length; lia).
    rewrite repeat_length, nth_repeat_lt by lia. reflexivity.
Qed.

Lemma selective_prefix_is_progressive_witness :
  exists recs,
    synthesize_progressive (mkAnalyzer 1 (2 * PI)) 1 [1; 2; 3] [4; 5; 6] [0; 1]
    = Ok recs /\
    synthesize_selective (mkAnalyzer 1 (2 * PI)) 1 [1; 2; 3] [4; 5; 6] [0; 1]
      (repeat true 2 ++ repeat false 4)
    = Ok (nth 2 recs []).
Proof.
  apply (selective_prefix_is_progressive (mkAnalyzer 1 (2 * PI)) 1
           [1; 2; 3] [4; 5; 6] [0; 1] 2 4); simpl; lia.
Defined.

Lemma fold_left_gated_sum (c : nat -> bool) (f : nat -> R) (l : list nat) :
  forall s,
    fold_left (fun s k => if c k then s + f k else s) l s
    = s + np_sum (map (fun k => if c k then f k else 0) l).
Proof.
  induction l as [|k l IH]; intros s; cbn [fold_left map np_sum fold_right].
  - lra.
  - rewrite IH. fold (np_sum (map (fun k => if c k then f k else 0) l)).
    destruct (c k); lra.
Qed.

(** X9.  Each sample of the selective reconstruction is [a0/2] plus the
    sum, over the harmonics [k < N] whose mask entry is true, of
    [an[k] cos((k+1) omega0 t) + bn[k] sin((k+1) omega0 t)]. *)
Theorem synthesize_selective_sum
    (self : analyzer) (a0 : R) (an bn t : list R) (mask : list bool) :
  length an = length bn ->
  exists sel,
    synthesize_selective self a0 an bn t mask = Ok sel /\
    length sel = length t /\
    forall j, (j < length t)%nat ->
      nth j sel 0
      = a0 / 2
        + np_sum
            (map (fun k =>
                    if nth k mask false
                    then nth k an 0 * cos (INR (k + 1) * omega0 self * nth j t 0)
                         + nth k bn 0 * sin (INR (k + 1) * omega0 self * nth j t 0)
                    else 0)
               (seq 0 (length an))).
Proof.
  intros Hlen. exists (spec_selective self a0 an bn t mask).
  split; [apply synthesize_selective_spec; lia|].
  split; [unfold spec_selective; apply length_map|].
  intros j Hj. unfold spec_selective.
  rewrite (nth_map_lt _ t j 0) by assumption.
  unfold spec_selective_sample.
  rewrite <- (fold_left_gated_sum (fun k => nth k mask false)).
  apply fold_left_ext_in. intros s k _.
  destruct (nth k mask false); lra.
Qed.

Lemma synthesize_selective_sum_witness :
  exists sel,
    synthesize_selective (mkAnalyzer 1 (2 * PI)) 1 [1; 2] [3; 4] [0; 1]
      [false; true] = Ok sel /\
    length sel = length [0; 1] /\
    forall j, (j < length [0; 1])%nat ->
      nth j sel 0
      = 1 / 2
        + np_sum
            (map (fun k =>
                    if nth k [false; true] false
                    then nth k [1; 2] 0 * cos (INR (k + 1) * (2 * PI) * nth j [0; 1] 0)
                         + nth k [3; 4] 0 * sin (INR (k + 1) * (2 * PI) * nth j [0; 1] 0)
                    else 0)
               (seq 0 (length [1; 2]))).
Proof.
  apply (synthesize_selective_sum (mkAnalyzer 1 (2 * PI)) 1 [1; 2] [3; 4] [0; 1]
           [false; true]).
  reflexivity.
Defined.

(** The constructor and [update_period] both leave
    [omega0 * period = 2 pi]. *)
Lemma init_invariant (p : R) (self : analyzer) :
  init p = Ok self -> omega0 self * period self = 2 * PI.
Proof.
  unfold init, py_div. destruct (Req_dec_T p 0); [discriminate|].
  cbn [bind]. intros H. injection H as <-. cbn [omega0 period]. field. assumption.
Qed.

Lemma update_period_invariant (old self : analyzer) (value : Z) :
  update_period old value = Ok self -> omega0 self * period self = 2 * PI.
Proof.
  unfold update_period, py_div.
  destruct (Req_dec_T 100 0); [lra|]. cbn [bind].
  destruct (Req_dec_T (IZR value / 100) 0); [discriminate|].
  cbn [bind]. intros H. injection H as <-. cbn [omega0 period]. field.
  intros E. apply n0. rewrite E. field.
Qed.

(** X10.  On an analyzer made by the constructor or by [update_period],
    a reconstruction repeats with the period: shifting every time sample
    by one period changes nothing. *)
Theorem reconstruction_is_periodic
    (self : analyzer) (a0 : R) (an bn t : list R) (mask : list bool) :
  (exists p, init p = Ok self) \/
  (exists old value, update_period old value = Ok self) ->
  length an = length bn ->
  synthesize_selective self a0 an bn (map (fun ti => ti + period self) t) mask
  = synthesize_selective self a0 an bn t mask.
Proof.
  intros Hmade Hlen.
  assert (Hinv : omega0 self * period self = 2 * PI).
  { destruct Hmade as [[p Hp] | [old [v Hv]]];
      eauto using init_invariant, update_period_invariant. }
  rewrite !synthesize_selective_spec by lia. f_equal.
  unfold spec_selective. rewrite map_map. apply map_ext. intros ti.
  unfold spec_selective_sample. apply fold_left_ext_in. intros s k _.
  replace (INR (k + 1) * omega0 self * (ti + period self))
    with (INR (k + 1) * omega0 self * ti + 2 * INR (k + 1) * PI)
    by (transitivity (INR (k + 1) * omega0 self * ti
                      + INR (k + 1) * (omega0 self * period self));
        [rewrite Hinv; ring | ring]).
  now rewrite cos_period, sin_period.
Qed.

Lemma reconstruction_is_periodic_witness :
  synthesize_selective (mkAnalyzer 3 (2 * PI / 3)) 1 [1; 2] [3; 4]
    (map (fun ti => ti + period (mkAnalyzer 3 (2 * PI / 3))) [0; 1]) [true; true]
  = synthesize_selective (mkAnalyzer 3 (2 * PI / 3)) 1 [1; 2] [3; 4] [0; 1]
      [true; true].
Proof.
  apply (reconstruction_is_periodic (mkAnalyzer 3 (2 * PI / 3)) 1 [1; 2] [3; 4]
           [0; 1] [true; true]).
  - left. exists 3. unfold init. rewrite py_div_ok by lra. reflexivity.
  - reflexivity.
Defined.

(** ** Metrics *)

Lemma fold_Rmax_ge_start (l : list R) : forall x, x <= fold_left Rmax l x.
Proof.
  induction l as [|a l IH]; intros x; simpl; [lra|].
  apply Rle_trans with (Rmax x a); [apply Rmax_l | apply IH].
Qed.

Lemma fold_Rmax_ge_in (l : list R) :
  forall x v, In v l -> v <= fold_left Rmax l x.
Proof.
  induction l as [|a l IH]; intros x v Hv; [destruct Hv|].
  simpl. destruct Hv as [<- | Hv].
  - apply Rle_trans with (Rmax x a); [apply Rmax_r | apply fold_Rmax_ge_start].
  - now apply IH.
Qed.

Lemma fold_Rmax_attained (l : list R) :
  forall x, fold_left Rmax l x = x \/ In (fold_left Rmax l x) l.
Proof.
  induction l as [|a l IH]; intros x; simpl; [now left|].
  destruct (IH (Rmax x a)) as [E | Hin]; [|now right; right].
  rewrite E. unfold Rmax. destruct (Rle_dec x a); [right; now left | now left].
Qed.

(** [np.max(np.abs(d))] bounds every entry and is one of them. *)
Lemma np_max_abs_spec (d : list R) :
  d <> [] ->
  exists M,
    np_max (np_abs d) = Ok M /\
    (forall v, In v d -> Rabs v <= M) /\
    (exists v, In v d /\ M = Rabs v).
Proof.
  intros Hd. destruct d as [|a d]; [congruence|].
  cbn [np_abs map np_max]. eexists. split; [reflexivity|]. split.
  - intros v [<- | Hv]; [apply fold_Rmax_ge_start|].
    apply fold_Rmax_ge_in. now apply in_map.
  - destruct (fold_Rmax_attained (map Rabs d) (Rabs a)) as [E | Hin].
    + exists a. split; [now left | exact E].
    + apply in_map_iff in Hin. destruct Hin as [v [Hv Hin]].
      exists v. split; [now right | now symmetry].
Qed.

Lemma zip_with_nonempty {A B C : Type} (f : A -> B -> C) (x : list A) (y : list B) :
  length x = length y -> x <> [] -> zip_with f x y <> [].
Proof.
  destruct x, y; simpl; intros; congruence.
Qed.

(** [compute_metrics] on two arrays of one length, field by field. *)
Lemma compute_metrics_closed (x y : list R) :
  length x = length y -> x <> [] ->
  exists M,
    compute_metrics x y
    = Ok {| rms_error := sqrt (np_mean (np_square (zip_with Rminus x y)));
            max_error := M;
            snr_db :=
              float_mul 20
                (np_log10
                   (np_std x
                    / (sqrt (np_mean (np_square (zip_with Rminus x y))) + eps)));
            relative_error :=
              sqrt (np_mean (np_square (zip_with Rminus x y)))
              / (np_std x + eps) |} /\
    (forall v, In v (zip_with Rminus x y) -> Rabs v <= M) /\
    (exists v, In v (zip_with Rminus x y) /\ M = Rabs v).
Proof.
  intros Hlen Hx.
  destruct (np_max_abs_spec (zip_with Rminus x y)) as [M [HM Hspec]];
    [now apply zip_with_nonempty|].
  exists M. split; [|exact Hspec].
  unfold compute_metrics. rewrite broadcast2_same by assumption.
  cbn [bind]. rewrite HM. reflexivity.
Qed.

Lemma np_mean_le (l : list R) (B : R) :
  l <> [] -> (forall v, In v l -> v <= B) -> np_mean l <= B.
Proof.
  intros Hl Hb. unfold np_mean.
  assert (Hn : 0 < INR (length l)).
  { apply lt_0_INR. destruct l; [congruence | simpl; lia]. }
  assert (Hs : np_sum l <= INR (length l) * B).
  { clear Hl Hn. induction l as [|a l IH]; [simpl; lra|].
    cbn [np_sum fold_right length]. fold (np_sum l). rewrite S_INR.
    assert (a <= B) by (apply Hb; now left).
    assert (np_sum l <= INR (length l) * B) by (apply IH; intros; apply Hb; now right).
    lra. }
  apply (Rmult_le_reg_r (INR (length l))); [assumption|].
  unfold Rdiv. rewrite Rmult_assoc, Rinv_l by lra. lra.
Qed.

Lemma np_mean_nonneg (l : list R) :
  (forall v, In v l -> 0 <= v) -> 0 <= np_mean l.
Proof.
  intros H. unfold np_mean, Rdiv.
  apply Rmult_le_pos; [now apply np_sum_nonneg|].
  destruct l as [|a l]; [simpl; rewrite Rinv_0; lra|].
  left. apply Rinv_0_lt_compat, lt_0_INR. simpl. lia.
Qed.

Lemma np_square_nonneg (d : list R) : forall v, In v (np_square d) -> 0 <= v.
Proof.
  intros v Hv. unfold np_square in Hv. apply in_map_iff in Hv.
  destruct Hv as [u [<- _]]. simpl. rewrite Rmult_1_r. apply (Rle_0_sqr u).
Qed.

(** X11.  On two non-empty arrays of one length the errors are ordered:
    [0 <= rms_error <= max_error], and [relative_error] is not negative. *)
Theorem compute_metrics_bounds (x y : list R) :
  length x = length y -> x <> [] ->
  exists m,
    compute_metrics x y = Ok m /\
    0 <= rms_error m <= max_error m /\
    0 <= relative_error m.
Proof.
  intros Hlen Hx.
  destruct (compute_metrics_closed x y Hlen Hx) as [M [Hm [Hbound [w [Hw HMw]]]]].
  eexists. split; [exact Hm|]. cbn [rms_error max_error relative_error].
  set (d := zip_with Rminus x y) in *.
  assert (HM0 : 0 <= M) by (rewrite HMw; apply Rabs_pos).
  assert (Hr0 : 0 <= sqrt (np_mean (np_square d))) by apply sqrt_pos.
  split; [split; [exact Hr0|] |].
  - rewrite <- (sqrt_square M) by assumption.
    apply sqrt_le_1_alt. apply np_mean_le.
    + unfold np_square. intros E. apply map_eq_nil in E.
      subst d. revert E. now apply zip_with_nonempty.
    + intros v Hv. unfold np_square in Hv. apply in_map_iff in Hv.
      destruct Hv as [u [<- Hu]]. specialize (Hbound u Hu).
      simpl. rewrite Rmult_1_r.
      assert (Hu2 : u * u = Rabs u * Rabs u).
      { unfold Rabs. destruct (Rcase_abs u); ring. }
      rewrite Hu2. pose proof (Rabs_pos u). nra.
  - apply Rmult_le_pos; [exact Hr0|].
    left. apply Rinv_0_lt_compat.
    pose proof (np_std_nonneg x). pose proof eps_pos. lra.
Qed.

Lemma compute_metrics_bounds_witness :
  exists m,
    compute_metrics [1; 2; 3] [1; 0; 5] = Ok m /\
    0 <= rms_error m <= max_error m /\
    0 <= relative_error m.
Proof.
  apply (compute_metrics_bounds [1; 2; 3] [1; 0; 5]); [reflexivity | discriminate].
Defined.

Lemma zip_minus_zero (x y : list R) :
  length x = length y ->
  (forall v, In v (zip_with Rminus x y) -> v = 0) -> x = y.
Proof.
  revert y; induction x as [|a x IH]; intros [|b y] Hlen H;
    simpl in *; try congruence.
  f_equal.
  - assert (a - b = 0) by (apply H; now left). lra.
  - apply IH; [congruence|]. intros v Hv. apply H. now right.
Qed.

(** X12.  On two non-empty arrays of one length, [max_error] is 0 exactly
    when the arrays are equal, and so is [rms_error]. *)
Theorem compute_metrics_zero_iff_equal (x y : list R) :
  length x = length y -> x <> [] ->
  exists m,
    compute_metrics x y = Ok m /\
    (max_error m = 0 <-> x = y) /\
    (rms_error m = 0 <-> x = y).
Proof.
  intros Hlen Hx.
  destruct (compute_metrics_closed x y Hlen Hx) as [M [Hm [Hbound [w [Hw HMw]]]]].
  eexists. split; [exact Hm|]. cbn [rms_error max_error].
  assert (Heq : x = y ->
            M = 0 /\ sqrt (np_mean (np_square (zip_with Rminus x y))) = 0).
  { intros <-. rewrite compute_metrics_self in Hm by assumption.
    injection Hm as Hr HM _ _. split; congruence. }
  split; split.
  - intros HM. apply zip_minus_zero; [assumption|].
    intros v Hv. specialize (Hbound v Hv). rewrite HM in Hbound.
    pose proof (Rabs_pos v).
    destruct (Req_dec v 0) as [E|E]; [exact E|].
    pose proof (Rabs_pos_lt v E). lra.
  - intros E. exact (proj1 (Heq E)).
  - intros Hr. apply zip_minus_zero; [assumption|].
    apply sqrt_eq_0 in Hr; [|apply np_mean_nonneg, np_square_nonneg].
    assert (Hn : 0 < INR (length (np_square (zip_with Rminus x y)))).
    { unfold np_square. rewrite length_map, zip_with_length.
      apply lt_0_INR. destruct x, y; simpl in *; try congruence; lia. }
    assert (Hs : np_sum (np_square (zip_with Rminus x y)) = 0).
    { unfold np_mean, Rdiv in Hr.
      apply Rmult_integral in Hr. destruct Hr as [Hr | Hr]; [exact Hr|].
      pose proof (Rinv_0_lt_compat _ Hn). lra. }
    intros v Hv.
    assert (Hv2 : v ^ 2 = 0).
    { apply (np_sum_zero_inv _ (np_square_nonneg _) Hs).
      unfold np_square. apply in_map_iff. now exists v. }
    simpl in Hv2. rewrite Rmult_1_r in Hv2.
    apply Rmult_integral in Hv2. lra.
  - intros E. exact (proj2 (Heq E)).
Qed.

Lemma compute_metrics_zero_iff_equal_witness :
  exists m,
    compute_metrics [1; 2; 3] [1; 0; 5] = Ok m /\
    (max_error m = 0 <-> [1; 2; 3] = [1; 0; 5]) /\
    (rms_error m = 0 <-> [1; 2; 3] = [1; 0; 5]).
Proof.
  apply (compute_metrics_zero_iff_equal [1; 2; 3] [1; 0; 5]);
    [reflexivity | discriminate].
Defined.

Lemma zip_minus_swap (x y : list R) :
  zip_with Rminus y x = map Ropp (zip_with Rminus x y).
Proof.
  revert y; induction x as [|a x IH]; intros [|b y]; simpl; try reflexivity.
  rewrite IH. f_equal. lra.
Qed.

(** X13.  Swapping the two arrays changes neither [rms_error] nor
    [max_error]. *)
Theorem compute_metrics_symmetric (x y : list R) :
  length x = length y -> x <> [] ->
  exists m1 m2,
    compute_metrics x y = Ok m1 /\ compute_metrics y x = Ok m2 /\
    rms_error m1 = rms_error m2 /\ max_error m1 = max_error m2.
Proof.
  intros Hlen Hx.
  assert (Hy : y <> []) by (destruct x, y; simpl in *; congruence).
  assert (Hsq : np_square (zip_with Rminus y x) = np_square (zip_with Rminus x y)).
  { rewrite zip_minus_swap. unfold np_square. rewrite map_map.
    apply map_ext. intros v. simpl. ring. }
  assert (Hab : np_abs (zip_with Rminus y x) = np_abs (zip_with Rminus x y)).
  { rewrite zip_minus_swap. unfold np_abs. rewrite map_map.
    apply map_ext. intros v. apply Rabs_Ropp. }
  destruct (np_max_abs_spec (zip_with Rminus x y)) as [M [HM _]];
    [now apply zip_with_nonempty|].
  do 2 eexists.
  split; [unfold compute_metrics; rewrite broadcast2_same by assumption;
          cbn [bind]; rewrite HM; reflexivity|].
  split; [unfold compute_metrics; rewrite broadcast2_same by (symmetry; assumption);
          cbn [bind]; rewrite Hab, HM; reflexivity|].
  cbn [rms_error max_error]. now rewrite Hsq.
Qed.

Lemma compute_metrics_symmetric_witness :
  exists m1 m2,
    compute_metrics [1; 2; 3] [1; 0; 5] = Ok m1 /\
    compute_metrics [1; 0; 5] [1; 2; 3] = Ok m2 /\
    rms_error m1 = rms_error m2 /\ max_error m1 = max_error m2.
Proof.
  apply (compute_metrics_symmetric [1; 2; 3] [1; 0; 5]);
    [reflexivity | discriminate].
Defined.

(** X14.  An empty array on either side is a [ValueError], whatever the
    other array is: either the shapes do not broadcast, or the difference
    is empty and [np.max] refuses it. *)
Theorem compute_metrics_empty_input (x y : list R) :
  x = [] \/ y = [] -> compute_metrics x y = Raise ValueError.
Proof.
  intros [-> | ->].
  - destruct y as [|b [|b' y]]; reflexivity.
  - destruct x as [|a [|a' x]]; reflexivity.
Qed.

Lemma compute_metrics_empty_input_witness :
  compute_metrics [] [1; 2] = Raise ValueError.
Proof. apply (compute_metrics_empty_input [] [1; 2]). now left. Defined.

(** ** Harmonic analysis *)

Lemma zip_with_map2 {A B C D E : Type} (op : C -> D -> E) (f : A -> C) (g : B -> D)
    (x : list A) (y : list B) :
  zip_with op (map f x) (map g y) = zip_with (fun a b => op (f a) (g b)) x y.
Proof.
  revert y; induction x as [|a x IH]; intros [|b y]; simpl; try reflexivity.
  now rewrite IH.
Qed.

Lemma map_zip_with {A B C D : Type} (h : C -> D) (op : A -> B -> C)
    (x : list A) (y : list B) :
  map h (zip_with op x y) = zip_with (fun a b => h (op a b)) x y.
Proof.
  revert y; induction x as [|a x IH]; intros [|b y]; simpl; try reflexivity.
  now rewrite IH.
Qed.

Lemma zip_with_ext {A B C : Type} (f g : A -> B -> C) (x : list A) (y : list B) :
  (forall a b, f a b = g a b) -> zip_with f x y = zip_with g x y.
Proof.
  intros H. revert y; induction x as [|a x IH]; intros [|b y]; simpl; try reflexivity.
  now rewrite H, IH.
Qed.

(** The power of a harmonic is the sum of the squares of its two
    coefficients: squaring undoes the square root of the magnitude. *)
Lemma power_of_coefficients (an bn : list R) :
  np_square (map sqrt (zip_with Rplus (np_square an) (np_square bn)))
  = zip_with (fun a b => a * a + b * b) an bn.
Proof.
  unfold np_square. rewrite zip_with_map2, !map_zip_with.
  apply zip_with_ext. intros a b. simpl. rewrite !Rmult_1_r.
  apply sqrt_sqrt. pose proof (Rle_0_sqr a). pose proof (Rle_0_sqr b).
  unfold Rsqr in *. lra.
Qed.

(** [get_harmonic_analysis] on two arrays of one length, field by field. *)
Lemma get_harmonic_analysis_closed (an bn : list R) :
  length an = length bn ->
  get_harmonic_analysis an bn
  = Ok (let magnitude := map sqrt (zip_with Rplus (np_square an) (np_square bn)) in
        let power := np_square magnitude in
        {| magnitude := magnitude;
           phase := zip_with arctan2 bn an;
           power := power;
           total_power := np_sum power;
           power_percentage := map (fun p => p / (np_sum power + eps) * 100) power;
           dominant_harmonics :=
             map (fun i => (i + 1)%nat) (rev (last_n 5 (argsort magnitude)));
           fundamental_power :=
             if (0 <? length power)%nat then nth 0 power 0 else 0;
           thd :=
             if (0 <? length power)%nat
             then sqrt (np_sum (tl power) / (nth 0 power 0 + eps)) * 100
             else 0 |}).
Proof.
  intros Hlen. unfold get_harmonic_analysis.
  rewrite broadcast2_same by (unfold np_square; now rewrite !length_map).
  rewrite broadcast2_same by (symmetry; exact Hlen).
  reflexivity.
Qed.

(** X16.  On coefficient arrays of one length [N], the four arrays of the
    analysis have [N] entries; entry [k] of [magnitude] is
    [sqrt(an[k]^2 + bn[k]^2)], entry [k] of [power] is
    [an[k]^2 + bn[k]^2], and [total_power] is their sum, which is not
    negative. *)
Theorem get_harmonic_analysis_power (an bn : list R) :
  length an = length bn ->
  exists ha,
    get_harmonic_analysis an bn = Ok ha /\
    length (magnitude ha) = length an /\ length (phase ha) = length an /\
    length (power ha) = length an /\ length (power_percentage ha) = length an /\
    (forall k, (k < length an)%nat ->
       nth k (magnitude ha) 0 = sqrt (nth k an 0 * nth k an 0 + nth k bn 0 * nth k bn 0) /\
       nth k (power ha) 0 = nth k an 0 * nth k an 0 + nth k bn 0 * nth k bn 0) /\
    total_power ha = np_sum (power ha) /\
    0 <= total_power ha.
Proof.
  intros Hlen. eexists.
  split; [now apply get_harmonic_analysis_closed|].
  cbn zeta. cbn [magnitude phase power power_percentage total_power].
  rewrite power_of_coefficients.
  rewrite !length_map, !zip_with_length.
  unfold np_square. rewrite !length_map.
  repeat split; try lia.
  - rewrite zip_with_map2, map_zip_with.
    rewrite (nth_zip_with _ an bn k 0 0) by lia.
    simpl. now rewrite !Rmult_1_r.
  - now rewrite (nth_zip_with _ an bn k 0 0) by lia.
  - apply np_sum_nonneg. intros v Hv.
    rewrite <- (map_id (zip_with _ an bn)) in Hv.
    rewrite map_zip_with in Hv.
    assert (Hall : forall x y v, In v (zip_with (fun a b : R => a * a + b * b) x y)
                     -> 0 <= v).
    { clear. induction x as [|a x IH]; intros [|b y] v Hv; simpl in Hv;
        try contradiction.
      destruct Hv as [<- | Hv]; [|eauto].
      pose proof (Rle_0_sqr a). pose proof (Rle_0_sqr b). unfold Rsqr in *. lra. }
    eapply Hall. exact Hv.
Qed.

Lemma get_harmonic_analysis_power_witness :
  exists ha,
    get_harmonic_analysis [3; 0] [4; 1] = Ok ha /\
    length (magnitude ha) = length [3; 0] /\ length (phase ha) = length [3; 0] /\
    length (power ha) = length [3; 0] /\
    length (power_percentage ha) = length [3; 0] /\
    (forall k, (k < length [3; 0])%nat ->
       nth k (magnitude ha) 0
       = sqrt (nth k [3; 0] 0 * nth k [3; 0] 0 + nth k [4; 1] 0 * nth k [4; 1] 0) /\
       nth k (power ha) 0
       = nth k [3; 0] 0 * nth k [3; 0] 0 + nth k [4; 1] 0 * nth k [4; 1] 0) /\
    total_power ha = np_sum (power ha) /\
    0 <= total_power ha.
Proof. apply (get_harmonic_analysis_power [3; 0] [4; 1]). reflexivity. Defined.

Lemma power_entries_nonneg (an bn : list R) :
  forall v, In v (zip_with (fun a b : R => a * a + b * b) an bn) -> 0 <= v.
Proof.
  revert bn; induction an as [|a an IH]; intros [|b bn] v Hv; simpl in Hv;
    try contradiction.
  destruct Hv as [<- | Hv]; [|eauto].
  pose proof (Rle_0_sqr a). pose proof (Rle_0_sqr b). unfold Rsqr in *. lra.
Qed.

Lemma np_sum_map_ratio (c : R) (l : list R) :
  np_sum (map (fun p => p / c * 100) l) = np_sum l / c * 100.
Proof.
  induction l as [|a l IH]; cbn [map np_sum fold_right].
  - unfold Rdiv. lra.
  - fold (np_sum (map (fun p => p / c * 100) l)). fold (np_sum l).
    rewrite IH. unfold Rdiv. lra.
Qed.

(** X17.  The power percentages are not negative and add up to
    [100 * total_power / (total_power + 1e-12)]: always below 100, and 0
    when every coefficient is 0. *)
Theorem power_percentage_sum (an bn : list R) :
  length an = length bn ->
  exists ha,
    get_harmonic_analysis an bn = Ok ha /\
    (forall v, In v (power_percentage ha) -> 0 <= v) /\
    np_sum (power_percentage ha)
    = total_power ha / (total_power ha + eps) * 100 /\
    0 <= np_sum (power_percentage ha) < 100.
Proof.
  intros Hlen. eexists.
  split; [now apply get_harmonic_analysis_closed|].
  cbn zeta. cbn [power_percentage total_power].
  rewrite power_of_coefficients.
  set (pw := zip_with (fun a b : R => a * a + b * b) an bn).
  assert (Hpos : forall v, In v pw -> 0 <= v) by apply power_entries_nonneg.
  assert (HP : 0 <= np_sum pw) by now apply np_sum_nonneg.
  pose proof eps_pos as He.
  assert (Hinv : 0 < / (np_sum pw + eps)) by (apply Rinv_0_lt_compat; lra).
  split; [|split].
  - intros v Hv. apply in_map_iff in Hv. destruct Hv as [p [<- Hp]].
    specialize (Hpos p Hp). unfold Rdiv. nra.
  - apply np_sum_map_ratio.
  - rewrite np_sum_map_ratio. unfold Rdiv. split; [nra|].
    assert (H1 : np_sum pw * / (np_sum pw + eps) < 1).
    { apply (Rmult_lt_reg_r (np_sum pw + eps)); [lra|].
      rewrite Rmult_assoc, Rinv_l by lra. lra. }
    lra.
Qed.

Lemma power_percentage_sum_witness :
  exists ha,
    get_harmonic_analysis [3; 0] [4; 1] = Ok ha /\
    (forall v, In v (power_percentage ha) -> 0 <= v) /\
    np_sum (power_percentage ha)
    = total_power ha / (total_power ha + eps) * 100 /\
    0 <= np_sum (power_percentage ha) < 100.
Proof. apply (power_percentage_sum [3; 0] [4; 1]). reflexivity. Defined.

Lemma power_sum_zero_iff (an bn : list R) :
  length an = length bn ->
  (np_sum (zip_with (fun a b : R => a * a + b * b) an bn) = 0
   <-> (forall v, In v an -> v = 0) /\ (forall v, In v bn -> v = 0)).
Proof.
  revert bn; induction an as [|a an IH]; intros [|b bn] Hlen;
    simpl in Hlen; try discriminate.
  - simpl. split; [intros _; split; intros v [] | reflexivity].
  - cbn [zip_with np_sum fold_right].
    fold (np_sum (zip_with (fun a b : R => a * a + b * b) an bn)).
    assert (Hl : length an = length bn) by congruence.
    specialize (IH bn Hl).
    assert (Hs : 0 <= np_sum (zip_with (fun a b : R => a * a + b * b) an bn))
      by apply np_sum_nonneg, power_entries_nonneg.
    pose proof (Rle_0_sqr a) as Ha. pose proof (Rle_0_sqr b) as Hb.
    unfold Rsqr in Ha, Hb.
    split.
    + intros H.
      assert (Ha0 : a * a = 0) by lra. assert (Hb0 : b * b = 0) by lra.
      assert (Hr : np_sum (zip_with (fun a b : R => a * a + b * b) an bn) = 0) by lra.
      apply IH in Hr. destruct Hr as [Hra Hrb].
      apply Rmult_integral in Ha0. apply Rmult_integral in Hb0.
      split; intros v [<- | Hv]; auto; lra.
    + intros [Hza Hzb].
      assert (E : np_sum (zip_with (fun a b : R => a * a + b * b) an bn) = 0).
      { apply IH. split; intros v Hv; [apply Hza | apply Hzb]; now right. }
      rewrite E, (Hza a), (Hzb b) by now left. lra.
Qed.

(** X18.  With at least one harmonic, [thd] is not negative, and it is 0
    exactly when every coefficient beyond the fundamental is 0. *)
Theorem thd_zero_iff (an bn : list R) :
  length an = length bn -> an <> [] ->
  exists ha,
    get_harmonic_analysis an bn = Ok ha /\
    0 <= thd ha /\
    (thd ha = 0
     <-> (forall v, In v (tl an) -> v = 0) /\ (forall v, In v (tl bn) -> v = 0)).
Proof.
  intros Hlen Han. eexists.
  split; [now apply get_harmonic_analysis_closed|].
  cbn zeta. cbn [thd]. rewrite power_of_coefficients.
  destruct an as [|a an]; [congruence|].
  destruct bn as [|b bn]; [discriminate|].
  cbn [zip_with length Nat.ltb Nat.leb tl nth].
  assert (Hl : length an = length bn) by (simpl in Hlen; congruence).
  set (rest := np_sum (zip_with (fun a b : R => a * a + b * b) an bn)).
  assert (HS : 0 <= rest) by apply np_sum_nonneg, power_entries_nonneg.
  pose proof (Rle_0_sqr a) as Ha. pose proof (Rle_0_sqr b) as Hb.
  unfold Rsqr in Ha, Hb. pose proof eps_pos as He.
  assert (Hinv : 0 < / (a * a + b * b + eps)) by (apply Rinv_0_lt_compat; lra).
  assert (Hq : 0 <= rest / (a * a + b * b + eps)) by (unfold Rdiv; nra).
  pose proof (sqrt_pos (rest / (a * a + b * b + eps))) as Hsq.
  split; [lra|].
  rewrite <- (power_sum_zero_iff an bn Hl). fold rest.
  split.
  - intros H.
    assert (H0 : sqrt (rest / (a * a + b * b + eps)) = 0) by lra.
    apply sqrt_eq_0 in H0; [|assumption].
    unfold Rdiv in H0. apply Rmult_integral in H0. lra.
  - intros ->. unfold Rdiv. rewrite Rmult_0_l, sqrt_0. lra.
Qed.

Lemma thd_zero_iff_witness :
  exists ha,
    get_harmonic_analysis [3; 0] [4; 1] = Ok ha /\
    0 <= thd ha /\
    (thd ha = 0
     <-> (forall v, In v (tl [3; 0]) -> v = 0) /\
         (forall v, In v (tl [4; 1]) -> v = 0)).
Proof.
  apply (thd_zero_iff [3; 0] [4; 1]); [reflexivity | discriminate].
Defined.

(** *** [np.argsort] and the dominant harmonics *)

Lemma insert_index_perm (a : list R) (i : nat) (l : list nat) :
  Permutation (insert_index a i l) (i :: l).
Proof.
  induction l as [|j l IH]; simpl; [apply Permutation_refl|].
  destruct (Rle_dec (nth i a 0) (nth j a 0)); [apply Permutation_refl|].
  apply Permutation_trans with (j :: i :: l); [now constructor | apply perm_swap].
Qed.

Lemma argsort_perm (a : list R) : Permutation (argsort a) (seq 0 (length a)).
Proof.
  unfold argsort. generalize (seq 0 (length a)) as l.
  induction l as [|i l IH]; simpl; [constructor|].
  apply Permutation_trans with (i :: fold_right (insert_index a) [] l);
    [apply insert_index_perm | now constructor].
Qed.

Lemma insert_index_sorted (a : list R) (i : nat) (l : list nat) :
  StronglySorted (fun p q => nth p a 0 <= nth q a 0) l ->
  StronglySorted (fun p q => nth p a 0 <= nth q a 0) (insert_index a i l).
Proof.
  induction l as [|j l IH]; intros Hs; simpl.
  - constructor; constructor.
  - apply StronglySorted_inv in Hs. destruct Hs as [Hl Hj].
    destruct (Rle_dec (nth i a 0) (nth j a 0)) as [Hle | Hnle].
    + constructor; [now constructor|].
      constructor; [exact Hle|].
      eapply Forall_impl; [|exact Hj]. simpl. intros q Hq. lra.
    + constructor; [now apply IH|].
      apply (Permutation_Forall (Permutation_sym (insert_index_perm a i l))).
      constructor; [lra | exact Hj].
Qed.

Lemma argsort_sorted (a : list R) :
  StronglySorted (fun p q => nth p a 0 <= nth q a 0) (argsort a).
Proof.
  unfold argsort. generalize (seq 0 (length a)) as l.
  induction l as [|i l IH]; simpl; [constructor|].
  now apply insert_index_sorted.
Qed.

Lemma StronglySorted_app_inv {A : Type} (R : A -> A -> Prop) (l1 l2 : list A) :
  StronglySorted R (l1 ++ l2) ->
  StronglySorted R l2 /\ (forall x y, In x l1 -> In y l2 -> R x y).
Proof.
  induction l1 as [|a l1 IH]; intros H; simpl in H.
  - split; [exact H | intros x y []].
  - apply StronglySorted_inv in H. destruct H as [Hs Ha].
    destruct (IH Hs) as [H2 Hc]. split; [exact H2|].
    intros x y [<- | Hx] Hy; [|now apply Hc].
    rewrite Forall_forall in Ha. apply Ha, in_or_app. now right.
Qed.

Lemma StronglySorted_snoc {A : Type} (R : A -> A -> Prop) (l : list A) (x : A) :
  StronglySorted R l -> (forall y, In y l -> R y x) ->
  StronglySorted R (l ++ [x]).
Proof.
  induction l as [|a l IH]; intros Hs Hx; simpl.
  - constructor; constructor.
  - apply StronglySorted_inv in Hs. destruct Hs as [Hl Ha].
    constructor; [apply IH; [exact Hl | intros; apply Hx; now right]|].
    apply Forall_app. split; [exact Ha|].
    constructor; [apply Hx; now left | constructor].
Qed.

Lemma StronglySorted_rev {A : Type} (R : A -> A -> Prop) (l : list A) :
  StronglySorted R l -> StronglySorted (fun x y => R y x) (rev l).
Proof.
  induction l as [|a l IH]; intros Hs; simpl; [constructor|].
  apply StronglySorted_inv in Hs. destruct Hs as [Hl Ha].
  apply StronglySorted_snoc; [now apply IH|].
  intros y Hy. apply in_rev in Hy. rewrite Forall_forall in Ha. now apply Ha.
Qed.

Lemma StronglySorted_map {A B : Type} (R : A -> A -> Prop) (Q : B -> B -> Prop)
    (f : A -> B) (l : list A) :
  (forall x y, R x y -> Q (f x) (f y)) ->
  StronglySorted R l -> StronglySorted Q (map f l).
Proof.
  intros H. induction 1 as [|a l Hs IH Ha]; simpl; constructor; [exact IH|].
  apply Forall_map. eapply Forall_impl; [|exact Ha]. intros; now apply H.
Qed.

Lemma NoDup_map_succ (l : list nat) :
  NoDup l -> NoDup (map (fun i => (i + 1)%nat) l).
Proof.
  induction 1 as [|x l Hx Hn IH]; simpl; constructor; [|exact IH].
  intros H. apply in_map_iff in H. destruct H as [y [Hy Hin]].
  assert (y = x) by lia. subst y. contradiction.
Qed.

Lemma last_n_length {A : Type} (k : nat) (l : list A) :
  length (last_n k l) = Nat.min k (length l).
Proof. unfold last_n. rewrite length_skipn. lia. Qed.

(** X19.  [dominant_harmonics] names [min(5, N)] different harmonics
    between 1 and [N], in descending order of magnitude, and no harmonic
    left out has a larger magnitude than one that is named. *)
Theorem dominant_harmonics_spec (an bn : list R) :
  length an = length bn ->
  exists ha,
    get_harmonic_analysis an bn = Ok ha /\
    length (dominant_harmonics ha) = Nat.min 5 (length an) /\
    NoDup (dominant_harmonics ha) /\
    (forall d, In d (dominant_harmonics ha) -> (1 <= d <= length an)%nat) /\
    StronglySorted
      (fun d e => nth (e - 1) (magnitude ha) 0 <= nth (d - 1) (magnitude ha) 0)
      (dominant_harmonics ha) /\
    (forall k d,
       (1 <= k <= length an)%nat -> ~ In k (dominant_harmonics ha) ->
       In d (dominant_harmonics ha) ->
       nth (k - 1) (magnitude ha) 0 <= nth (d - 1) (magnitude ha) 0).
Proof.
  intros Hlen. eexists.
  split; [now apply get_harmonic_analysis_closed|].
  cbn zeta. cbn [dominant_harmonics magnitude].
  set (mag := map sqrt (zip_with Rplus (np_square an) (np_square bn))).
  assert (Hmag : length mag = length an).
  { subst mag. unfold np_square. rewrite length_map, zip_with_length, !length_map. lia. }
  pose proof (argsort_perm mag) as Hperm. rewrite Hmag in Hperm.
  pose proof (argsort_sorted mag) as Hsort.
  assert (Hsplit : argsort mag
                   = firstn (length (argsort mag) - 5) (argsort mag)
                     ++ last_n 5 (argsort mag))
    by (unfold last_n; now rewrite firstn_skipn).
  set (lo := firstn (length (argsort mag) - 5) (argsort mag)) in *.
  set (hi := last_n 5 (argsort mag)) in *.
  assert (Hnd : NoDup (argsort mag)).
  { apply (Permutation_NoDup (Permutation_sym Hperm)), seq_NoDup. }
  assert (Hin : forall i, In i (argsort mag) <-> (i < length an)%nat).
  { intros i. split; intros H.
    - apply (Permutation_in _ Hperm) in H. apply in_seq in H. lia.
    - apply (Permutation_in _ (Permutation_sym Hperm)). apply in_seq. lia. }
  rewrite Hsplit in Hsort, Hnd.
  destruct (StronglySorted_app_inv _ _ _ Hsort) as [Hhi Hcross].
  assert (Hdom : forall d, In d (map (fun i => (i + 1)%nat) (rev hi))
                   <-> exists i, In i hi /\ d = (i + 1)%nat).
  { intros d. rewrite in_map_iff. split; intros [i [H1 H2]].
    - exists i. split; [now apply in_rev | now symmetry].
    - exists i. split; [now symmetry | now apply -> in_rev]. }
  split; [|split; [|split; [|split]]].
  - rewrite length_map, length_rev. subst hi.
    rewrite last_n_length, (Permutation_length Hperm), length_seq. reflexivity.
  - apply NoDup_map_succ.
    apply NoDup_rev. now apply NoDup_app_remove_l in Hnd.
  - intros d Hd. apply Hdom in Hd. destruct Hd as [i [Hi ->]].
    assert (In i (argsort mag)) by (rewrite Hsplit; apply in_or_app; now right).
    apply Hin in H. lia.
  - apply (StronglySorted_map (fun x y => nth y mag 0 <= nth x mag 0)).
    + intros x y H. now replace (x + 1 - 1)%nat with x by lia;
        replace (y + 1 - 1)%nat with y by lia.
    + now apply StronglySorted_rev.
  - intros k d Hk Hnot Hd. apply Hdom in Hd. destruct Hd as [i [Hi ->]].
    replace (i + 1 - 1)%nat with i by lia.
    apply Hcross; [|exact Hi].
    assert (Hk' : In (k - 1)%nat (argsort mag)) by (apply Hin; lia).
    rewrite Hsplit in Hk'. apply in_app_or in Hk'.
    destruct Hk' as [Hlo | Hhi']; [exact Hlo|].
    exfalso. apply Hnot. apply Hdom. exists (k - 1)%nat. split; [exact Hhi' | lia].
Qed.

Lemma dominant_harmonics_spec_witness :
  exists ha,
    get_harmonic_analysis [3; 0] [4; 1] = Ok ha /\
    length (dominant_harmonics ha) = Nat.min 5 (length [3; 0]) /\
    NoDup (dominant_harmonics ha) /\
    (forall d, In d (dominant_harmonics ha) -> (1 <= d <= length [3; 0])%nat) /\
    StronglySorted
      (fun d e => nth (e - 1) (magnitude ha) 0 <= nth (d - 1) (magnitude ha) 0)
      (dominant_harmonics ha) /\
    (forall k d,
       (1 <= k <= length [3; 0])%nat -> ~ In k (dominant_harmonics ha) ->
       In d (dominant_harmonics ha) ->
       nth (k - 1) (magnitude ha) 0 <= nth (d - 1) (magnitude ha) 0).
Proof. apply (dominant_harmonics_spec [3; 0] [4; 1]). reflexivity. Defined.

(** ** The waveform library *)

Lemma Int_part_plus_1 (r : R) : Int_part (r + 1) = (Int_part r + 1)%Z.
Proof.
  symmetry. apply Int_part_spec. rewrite plus_IZR.
  destruct (base_Int_part r) as [H1 H2]. lra.
Qed.

Lemma np_mod_finite (t P : R) :
  P <> 0 -> np_mod t P = Finite (frac_part (t / P) * P).
Proof.
  intros HP. unfold np_mod. destruct (Req_dec_T P 0); [contradiction|].
  f_equal. unfold frac_part. field. assumption.
Qed.

(** The remainder repeats with the divisor. *)
Lemma np_mod_shift (t P : R) : P <> 0 -> np_mod (t + P) P = np_mod t P.
Proof.
  intros HP. rewrite !np_mod_finite by assumption. do 2 f_equal.
  replace ((t + P) / P) with (t / P + 1) by (field; assumption).
  unfold frac_part. rewrite Int_part_plus_1, plus_IZR. lra.
Qed.

(** X20.  With a non-zero effective period [P], each of the five library
    waveforms repeats with [P]: shifting every sample time by [P] gives the
    same samples. *)
Theorem waveforms_are_periodic
    (self : analyzer) (t : list R) (A : R) (T : option R) (duty : R) :
  effective_period self T <> 0 ->
  let shifted := map (fun ti => ti + effective_period self T) t in
  square self shifted A T = square self t A T /\
  sawtooth self shifted A T = sawtooth self t A T /\
  triangle self shifted A T = triangle self t A T /\
  half_wave self shifted A T = half_wave self t A T /\
  pulse_train self shifted A T duty = pulse_train self t A T duty.
Proof.
  intros HP shifted. subst shifted.
  unfold square, sawtooth, triangle, half_wave, pulse_train. cbn zeta.
  set (P := effective_period self T) in *.
  rewrite !map_map.
  repeat split; apply map_ext; intros ti; try now rewrite np_mod_shift.
  destruct (Req_dec_T P 0); [reflexivity|]. do 3 f_equal.
  replace (2 * PI * (ti + P) / P) with (2 * PI * ti / P + 2 * INR 1 * PI)
    by (simpl; field; assumption).
  apply sin_period.
Qed.

Lemma waveforms_are_periodic_witness :
  let self := mkAnalyzer 2 (2 * PI / 2) in
  let shifted := map (fun ti => ti + effective_period self None) [0; 1 / 2; 3] in
  square self shifted 1 None = square self [0; 1 / 2; 3] 1 None /\
  sawtooth self shifted 1 None = sawtooth self [0; 1 / 2; 3] 1 None /\
  triangle self shifted 1 None = triangle self [0; 1 / 2; 3] 1 None /\
  half_wave self shifted 1 None = half_wave self [0; 1 / 2; 3] 1 None /\
  pulse_train self shifted 1 None (2 / 10)
  = pulse_train self [0; 1 / 2; 3] 1 None (2 / 10).
Proof.
  apply (waveforms_are_periodic (mkAnalyzer 2 (2 * PI / 2)) [0; 1 / 2; 3] 1 None
           (2 / 10)).
  simpl. lra.
Defined.

Lemma mod_over_period (t P : R) :
  P <> 0 -> frac_part (t / P) * P / P = frac_part (t / P).
Proof. intros HP. field. assumption. Qed.

(** X21.  With a non-zero effective period no library waveform exceeds
    the amplitude: every sample is a finite number of absolute value at
    most [|A|]; the square wave only takes the values [A] and [-A], the
    pulse train only [A] and 0, and the rectified sine is never negative
    for [A >= 0]. *)
Theorem waveforms_are_bounded
    (self : analyzer) (t : list R) (A : R) (T : option R) (duty : R) :
  effective_period self T <> 0 ->
  Forall (fun v => v = A \/ v = - A) (square self t A T) /\
  Forall (fun v => v = A \/ v = 0) (pulse_train self t A T duty) /\
  Forall (fun v => exists r, v = Finite r /\ Rabs r <= Rabs A) (sawtooth self t A T) /\
  Forall (fun v => exists r, v = Finite r /\ Rabs r <= Rabs A) (triangle self t A T) /\
  Forall (fun v => exists r, v = Finite r /\ Rabs r <= Rabs A /\ (0 <= A -> 0 <= r))
    (half_wave self t A T).
Proof.
  intros HP.
  unfold square, sawtooth, triangle, half_wave, pulse_train. cbn zeta.
  set (P := effective_period self T) in *.
  assert (Hscale : forall c, Rabs c <= 1 -> Rabs (A * c) <= Rabs A).
  { intros c Hc. rewrite Rabs_mult. pose proof (Rabs_pos A). nra. }
  repeat split; apply Forall_map, Forall_forall; intros ti _.
  - destruct (float_ltb _ _); [now left | now right].
  - destruct (float_ltb _ _); [now left | now right].
  - rewrite np_mod_finite by assumption. eexists. split; [reflexivity|].
    rewrite mod_over_period by assumption.
    destruct (base_fp (ti / P)) as [H0 H1].
    apply Hscale. apply Rabs_le. lra.
  - rewrite np_mod_finite by assumption. eexists. split; [reflexivity|].
    rewrite mod_over_period by assumption.
    destruct (base_fp (ti / P)) as [H0 H1].
    apply Hscale. apply Rabs_le.
    assert (Hb : Rabs (2 * (frac_part (ti / P) - 5 / 10)) <= 1)
      by (apply Rabs_le; lra).
    pose proof (Rabs_pos (2 * (frac_part (ti / P) - 5 / 10))). lra.
  - destruct (Req_dec_T P 0); [contradiction|].
    eexists. split; [reflexivity|].
    pose proof (SIN_bound (2 * PI * ti / P)) as [Hs1 Hs2].
    assert (Hb : Rabs (A * sin (2 * PI * ti / P)) <= Rabs A)
      by (apply Hscale, Rabs_le; lra).
    split.
    + unfold Rmax. destruct (Rle_dec 0 (A * sin (2 * PI * ti / P))).
      * exact Hb.
      * rewrite Rabs_R0. apply Rabs_pos.
    + intros _. apply Rmax_l.
Qed.

Lemma waveforms_are_bounded_witness :
  let self := mkAnalyzer 2 (2 * PI / 2) in
  Forall (fun v => v = 3 \/ v = - 3) (square self [0; 1 / 2; 3] 3 None) /\
  Forall (fun v => v = 3 \/ v = 0) (pulse_train self [0; 1 / 2; 3] 3 None (2 / 10)) /\
  Forall (fun v => exists r, v = Finite r /\ Rabs r <= Rabs 3)
    (sawtooth self [0; 1 / 2; 3] 3 None) /\
  Forall (fun v => exists r, v = Finite r /\ Rabs r <= Rabs 3)
    (triangle self [0; 1 / 2; 3] 3 None) /\
  Forall (fun v => exists r, v = Finite r /\ Rabs r <= Rabs 3 /\ (0 <= 3 -> 0 <= r))
    (half_wave self [0; 1 / 2; 3] 3 None).
Proof.
  apply (waveforms_are_bounded (mkAnalyzer 2 (2 * PI / 2)) [0; 1 / 2; 3] 3 None
           (2 / 10)).
  simpl. lra.
Defined.

(** ** The window's use of the engine *)

Lemma map_combine_fst {A B C : Type} (g : A -> C) (l1 : list A) (l2 : list B) :
  length l1 = length l2 ->
  map (fun p => g (fst p)) (combine l1 l2) = map g l1.
Proof.
  revert l2; induction l1 as [|a l1 IH]; intros [|b l2] H; simpl in *;
    try discriminate; [reflexivity|].
  f_equal. apply IH. congruence.
Qed.

(** The check marks [update_harmonic_checkboxes] leaves: box [i] is
    checked exactly when [i < n_harmonics]. *)
Lemma update_harmonic_checkboxes_checked (n : Z) (boxes : list checkbox) :
  map cb_checked (update_harmonic_checkboxes n boxes)
  = map (fun i => (Z.of_nat i <? n)%Z) (seq 0 (length boxes)).
Proof.
  unfold update_harmonic_checkboxes, enumerate. rewrite map_map.
  rewrite <- (map_combine_fst (fun i => (Z.of_nat i <? n)%Z) _ boxes)
    by apply length_seq.
  apply map_ext. intros [i cb]. cbn [fst].
  destruct (Z.of_nat i <? n)%Z; reflexivity.
Qed.

Lemma mask_of_count (N L : nat) :
  map (fun i => (Z.of_nat i <? Z.of_nat N)%Z) (seq 0 L)
  = repeat true (Nat.min N L) ++ repeat false (L - N).
Proof.
  replace L with (Nat.min N L + (L - N))%nat at 1 by lia.
  rewrite seq_app, map_app. f_equal.
  - rewrite (map_ext_in _ (fun _ => true)).
    + now rewrite map_const, length_seq.
    + intros i Hi. apply in_seq in Hi. apply Z.ltb_lt. lia.
  - rewrite (map_ext_in _ (fun _ => false)).
    + now rewrite map_const, length_seq.
    + intros i Hi. apply in_seq in Hi. apply Z.ltb_ge. lia.
Qed.

Lemma selective_prefix_closed
    (self : analyzer) (a0 : R) (an bn t : list R) (i k : nat) :
  (length an <= length bn)%nat -> (i <= length an)%nat ->
  synthesize_selective self a0 an bn t (repeat true i ++ repeat false k)
  = Ok (partial_sum self a0 an bn t i).
Proof.
  intros Hlen Hi.
  rewrite synthesize_selective_closed by assumption. f_equal.
  rewrite length_app, !repeat_length.
  rewrite (fold_cond_trunc (harmonic_term self an bn t)
             (fun n => nth n (repeat true i ++ repeat false k) false
                       && (n <? length an)%nat) i (i + k)); [| lia |].
  - unfold partial_sum. apply fold_left_ext_in.
    intros s n Hn. apply in_seq in Hn.
    rewrite app_nth1 by (rewrite repeat_length; lia).
    rewrite nth_repeat_lt by lia.
    now rewrite (proj2 (Nat.ltb_lt n (length an))) by lia.
  - intros n Hn. rewrite app_nth2 by (rewrite repeat_length; lia).
    rewrite repeat_length, nth_repeat_lt by lia. reflexivity.
Qed.

(** X23.  After [update_harmonic_checkboxes(N)] box [i] is checked exactly
    when [i < N], and the selective view then shows the progressive array
    number [min(N, number of boxes)]: the full reconstruction when there
    are at least [N] boxes, and otherwise the partial sum that stops at the
    last box. *)
Theorem default_selection_is_partial_sum
    (self : analyzer) (a0 : R) (an bn t : list R) (boxes : list checkbox) :
  length an = length bn ->
  map cb_checked (update_harmonic_checkboxes (Z.of_nat (length an)) boxes)
  = map (fun i => (i <? length an)%nat) (seq 0 (length boxes)) /\
  exists recs,
    synthesize_progressive self a0 an bn t = Ok recs /\
    update_selective_synthesis self a0 an bn t
      (update_harmonic_checkboxes (Z.of_nat (length an)) boxes)
    = Ok (nth (Nat.min (length an) (length boxes)) recs []).
Proof.
  intros Hlen. split.
  - rewrite update_harmonic_checkboxes_checked. apply map_ext. intros i.
    destruct (Nat.ltb_spec i (length an)); [apply Z.ltb_lt | apply Z.ltb_ge]; lia.
  - eexists. split; [apply synthesize_progressive_closed; lia|].
    unfold update_selective_synthesis. cbn zeta.
    rewrite update_harmonic_checkboxes_checked, mask_of_count.
    rewrite selective_prefix_closed by lia. f_equal.
    rewrite (nth_map_lt _ _ _ 0%nat) by (rewrite length_seq; lia).
    now rewrite seq_nth by lia.
Qed.

Lemma default_selection_is_partial_sum_witness :
  map cb_checked
    (update_harmonic_checkboxes (Z.of_nat (length [1; 2; 3]))
       [mkCheckbox "H1"%string true true; mkCheckbox "H2"%string true false])
  = map (fun i => (i <? length [1; 2; 3])%nat)
      (seq 0 (length [mkCheckbox "H1"%string true true; mkCheckbox "H2"%string true false])) /\
  exists recs,
    synthesize_progressive (mkAnalyzer 1 (2 * PI)) 1 [1; 2; 3] [4; 5; 6] [0; 1]
    = Ok recs /\
    update_selective_synthesis (mkAnalyzer 1 (2 * PI)) 1 [1; 2; 3] [4; 5; 6] [0; 1]
      (update_harmonic_checkboxes (Z.of_nat (length [1; 2; 3]))
         [mkCheckbox "H1"%string true true; mkCheckbox "H2"%string true false])
    = Ok (nth (Nat.min (length [1; 2; 3])
                 (length [mkCheckbox "H1"%string true true; mkCheckbox "H2"%string true false]))
            recs []).
Proof.
  apply (default_selection_is_partial_sum (mkAnalyzer 1 (2 * PI)) 1
           [1; 2; 3] [4; 5; 6] [0; 1]
           [mkCheckbox "H1"%string true true; mkCheckbox "H2"%string true false]).
  reflexivity.
Defined.

Lemma reconstruct_first_closed
    (self : analyzer) (a0 : R) (an bn t : list R) (h : nat) :
  (h <= length an)%nat -> (h <= length bn)%nat ->
  reconstruct_first self a0 an bn t h = Ok (partial_sum self a0 an bn t h).
Proof.
  intros Ha Hb. unfold reconstruct_first, partial_sum. fold (dc_signal a0 t).
  apply for_each_pure. intros s n Hn. apply in_seq in Hn.
  apply add_harmonic_ok; lia.
Qed.

Lemma convergence_loop
    (self : analyzer) (a0 : R) (an bn t original : list R) (k : nat) :
  (k <= length an)%nat -> (k <= length bn)%nat -> length original = length t ->
  for_each
    (fun rms_errors h =>
       reconstruction <- reconstruct_first self a0 an bn t h ;;
       d <- broadcast2 Rminus original reconstruction ;;
       Ok (rms_errors ++ [rms_of d]))
    (seq 1 k) []
  = Ok (map (fun h => rms_of (zip_with Rminus original (partial_sum self a0 an bn t h)))
          (seq 1 k)).
Proof.
  intros Ha Hb Ho. induction k as [|k IH]; [reflexivity|].
  rewrite seq_S, for_each_app, IH by lia.
  cbn [bind for_each Nat.add].
  rewrite reconstruct_first_closed by lia. cbn [bind].
  rewrite broadcast2_same by (now rewrite partial_sum_length).
  cbn [bind]. now rewrite map_app.
Qed.

(** X24.  The convergence curve of [update_analysis] has one entry per
    harmonic, and entry [h - 1] is the [rms_error] that [compute_metrics]
    gives for the original signal against array [h] of the progressive
    sequence. *)
Theorem convergence_curve_is_progressive_rms
    (self : analyzer) (a0 : R) (an bn t original : list R) :
  length an = length bn -> length original = length t -> t <> [] ->
  exists recs errs,
    synthesize_progressive self a0 an bn t = Ok recs /\
    convergence_rms_errors self a0 an bn t original = Ok errs /\
    length errs = length an /\
    forall h, (1 <= h <= length an)%nat ->
      exists m,
        compute_metrics original (nth h recs []) = Ok m /\
        nth (h - 1) errs NaN = Finite (rms_error m).
Proof.
  intros Hlen Ho Ht. do 2 eexists.
  split; [apply synthesize_progressive_closed; lia|].
  split; [unfold convergence_rms_errors; apply convergence_loop; lia|].
  split; [now rewrite length_map, length_seq|].
  intros h Hh.
  rewrite (nth_map_lt _ _ h 0%nat) by (rewrite length_seq; lia).
  rewrite (nth_map_lt _ _ (h - 1) 0%nat) by (rewrite length_seq; lia).
  rewrite !seq_nth by lia.
  replace (1 + (h - 1))%nat with h by lia. cbn [Nat.add].
  assert (Hl : length original = length (partial_sum self a0 an bn t h))
    by now rewrite partial_sum_length.
  assert (Hne : original <> [])
    by (destruct original, t; simpl in *; congruence).
  destruct (compute_metrics_closed original _ Hl Hne) as [M [Hm _]].
  eexists. split; [exact Hm|]. cbn [rms_error]. unfold rms_of.
  destruct (zip_with Rminus original (partial_sum self a0 an bn t h)) eqn:E;
    [|reflexivity].
  exfalso. revert E. now apply zip_with_nonempty.
Qed.

Lemma convergence_curve_is_progressive_rms_witness :
  exists recs errs,
    synthesize_progressive (mkAnalyzer 1 (2 * PI)) 1 [1; 2] [3; 4] [0; 1] = Ok recs /\
    convergence_rms_errors (mkAnalyzer 1 (2 * PI)) 1 [1; 2] [3; 4] [0; 1] [5; 6]
    = Ok errs /\
    length errs = length [1; 2] /\
    forall h, (1 <= h <= length [1; 2])%nat ->
      exists m,
        compute_metrics [5; 6] (nth h recs []) = Ok m /\
        nth (h - 1) errs NaN = Finite (rms_error m).
Proof.
  apply (convergence_curve_is_progressive_rms (mkAnalyzer 1 (2 * PI)) 1
           [1; 2] [3; 4] [0; 1] [5; 6]); [reflexivity | reflexivity | discriminate].
Defined.

(** ** Prefixes *)

Lemma firstn_seq_min (n start len : nat) :
  firstn n (seq start len) = seq start (Nat.min n len).
Proof.
  revert start len; induction n as [|n IH]; intros start [|len]; simpl;
    try reflexivity.
  now rewrite IH.
Qed.

Lemma partial_sum_firstn
    (self : analyzer) (a0 : R) (an bn t : list R) (i k : nat) :
  (k <= i)%nat ->
  partial_sum self a0 (firstn i an) (firstn i bn) t k
  = partial_sum self a0 an bn t k.
Proof.
  intros Hk. unfold partial_sum. apply fold_left_ext_in.
  intros s n Hn. apply in_seq in Hn. unfold harmonic_term.
  now rewrite !nth_firstn, (proj2 (Nat.ltb_lt n i)) by lia.
Qed.

(** X25.  Later harmonics never change earlier partial sums: the
    progressive sequence of the first [i] coefficients is the first
    [i + 1] arrays of the progressive sequence of all of them. *)
Theorem synthesize_progressive_prefix
    (self : analyzer) (a0 : R) (an bn t : list R) (i : nat) :
  length an = length bn -> (i <= length an)%nat ->
  exists recs,
    synthesize_progressive self a0 an bn t = Ok recs /\
    synthesize_progressive self a0 (firstn i an) (firstn i bn) t
    = Ok (firstn (i + 1) recs).
Proof.
  intros Hlen Hi. eexists.
  split; [apply synthesize_progressive_closed; lia|].
  rewrite synthesize_progressive_closed by (rewrite !length_firstn; lia).
  f_equal. rewrite length_firstn, firstn_map, firstn_seq_min.
  replace (Nat.min i (length an)) with i by lia.
  replace (Nat.min (i + 1) (S (length an))) with (S i) by lia.
  apply map_ext_in. intros k Hk. apply in_seq in Hk.
  apply partial_sum_firstn. lia.
Qed.

Lemma synthesize_progressive_prefix_witness :
  exists recs,
    synthesize_progressive (mkAnalyzer 1 (2 * PI)) 1 [1; 2; 3] [4; 5; 6] [0; 1]
    = Ok recs /\
    synthesize_progressive (mkAnalyzer 1 (2 * PI)) 1
      (firstn 2 [1; 2; 3]) (firstn 2 [4; 5; 6]) [0; 1]
    = Ok (firstn (2 + 1) recs).
Proof.
  apply (synthesize_progressive_prefix (mkAnalyzer 1 (2 * PI)) 1
           [1; 2; 3] [4; 5; 6] [0; 1] 2); simpl; lia.
Defined.

(** X26.  Asking for more harmonics never changes the coefficients
    already there: [a0] is the same, and the arrays for [N] harmonics are
    the first [N] entries of the arrays for [N' >= N] harmonics. *)
Theorem compute_coefficients_prefix
    (self : analyzer) (func : list R -> result (list R)) (N N' n : Z) (y : list R) :
  period self <> 0 -> (0 <= N <= N')%Z -> (0 <= n)%Z ->
  func (sample_grid (period self) n) = Ok y ->
  length y = length (sample_grid (period self) n) ->
  exists a0 an bn,
    compute_coefficients self func N' n = Ok (a0, an, bn) /\
    compute_coefficients self func N n
    = Ok (a0, firstn (Z.to_nat N) an, firstn (Z.to_nat N) bn).
Proof.
  intros HT HN Hn Hf Hlen. do 3 eexists.
  split; [apply (compute_coefficients_closed self func N' n y); auto; lia|].
  rewrite (compute_coefficients_closed self func N n y) by (auto; lia).
  rewrite !firstn_map, firstn_seq_min.
  now replace (Nat.min (Z.to_nat N) (Z.to_nat N')) with (Z.to_nat N) by lia.
Qed.

Lemma compute_coefficients_prefix_witness :
  exists a0 an bn,
    compute_coefficients (mkAnalyzer 2 (2 * PI / 2))
      (fun t => Ok (map (fun _ => 1) t)) 5 4 = Ok (a0, an, bn) /\
    compute_coefficients (mkAnalyzer 2 (2 * PI / 2))
      (fun t => Ok (map (fun _ => 1) t)) 3 4
    = Ok (a0, firstn (Z.to_nat 3) an, firstn (Z.to_nat 3) bn).
Proof.
  apply (compute_coefficients_prefix (mkAnalyzer 2 (2 * PI / 2))
           (fun t => Ok (map (fun _ => 1) t)) 3 5 4
           (map (fun _ => 1) (sample_grid 2 4)));
    cbn [period]; try lra; try lia; try reflexivity.
Defined.

Example update_harmonic_checkboxes_example :
  update_harmonic_checkboxes 1
    [mkCheckbox "a"%string false false; mkCheckbox "b"%string true true]
  = [mkCheckbox "H1"%string true true; mkCheckbox "b"%string false false].
Proof. reflexivity. Qed.
